(** * War Thunder unit cost scraper: a shallow embedding and its properties

    The development follows [warthunder_unit_cost_scraper.py]:

    - the script's effects ([session.get], [time.sleep], [print]) are the
      nodes of an effect tree [prog]; Python exceptions are the [Raise] leaf
      and [try ... except requests.RequestException] is [try_except];
    - a [server] answers every request from the history of the run so far, so
      that rate limiters and scripted mock responses are both instances;
    - [fetch_with_retries], [get_unit_urls], [extract_total_cost] and [main]
      are written in that monad, statement by statement;
    - the parsed page is a tree of [node]s with the BeautifulSoup queries the
      script uses ([find_all], [find], [select], [text], [get_text]); the
      HTML parser itself is the library's and is a parameter;
    - the [ThreadPoolExecutor] is a step relation over the list of futures,
      where any running worker may perform its next effect and any finished
      future may be handed to the main thread next. *)

From Stdlib Require Import ZArith QArith String Ascii List Lia.
From stdpp Require Import base tactics option list strings pretty.

Import ListNotations.
Local Open Scope string_scope.
Local Open Scope list_scope.
Local Open Scope Z_scope.

(** ** Constants of the script *)

Definition BASE_URL : string := "https://wiki.warthunder.com".

(** [REQUEST_DELAY = 1.5] seconds. *)
Definition REQUEST_DELAY : Q := 3 # 2.

Definition MAX_RETRIES : nat := 5.

Definition CONCURRENT_WORKERS : nat := 3.

(** ** Exceptions *)

(** The classes of exception a request can raise.  The first four are
    subclasses of [requests.RequestException]; [OtherError] stands for any
    exception outside that hierarchy. *)
Inductive exn_class : Type :=
| ConnectionError
| ReadTimeout
| TooManyRedirects
| InvalidURL
| OtherError.

Record exn : Type := Exn { exn_cls : exn_class; exn_str : string }.

(** [isinstance(e, requests.RequestException)] *)
Definition is_RequestException (e : exn) : bool :=
  match exn_cls e with
  | OtherError => false
  | _ => true
  end.

(** ** Effects *)

(** What [session.get] gives back: a response with its [status_code] and
    [text], or an exception. *)
Inductive outcome : Type :=
| Response (status_code : Z) (text : string)
| Failure (e : exn).

Inductive prog (A : Type) : Type :=
| Ret (a : A)
| Raise (e : exn)
| SessionGet (url : string) (timeout : Z) (k : outcome -> prog A)
| Sleep (d : Q) (k : prog A)
| PrintLine (line : string) (k : prog A).

Arguments Ret {A} a.
Arguments Raise {A} e.
Arguments SessionGet {A} url timeout k.
Arguments Sleep {A} d k.
Arguments PrintLine {A} line k.

Fixpoint bind {A B : Type} (p : prog A) (f : A -> prog B) : prog B :=
  match p with
  | Ret a => f a
  | Raise e => Raise e
  | SessionGet url timeout k => SessionGet url timeout (fun o => bind (k o) f)
  | Sleep d k => Sleep d (bind k f)
  | PrintLine line k => PrintLine line (bind k f)
  end.

Declare Scope prog_scope.
Delimit Scope prog_scope with prog.
Notation "x <- p ;; q" := (bind p (fun x => q))
  (at level 100, p at next level, right associativity) : prog_scope.
Notation "p ;;; q" := (bind p (fun _ => q))
  (at level 100, right associativity) : prog_scope.
Local Open Scope prog_scope.

(** [session.get(url, timeout=t)]: the response, or the exception raised. *)
Definition session_get (url : string) (timeout : Z) : prog (Z * string) :=
  SessionGet url timeout
    (fun o => match o with
              | Response status_code text => Ret (status_code, text)
              | Failure e => Raise e
              end).

Definition sleep (d : Q) : prog unit := Sleep d (Ret tt).

Definition print (line : string) : prog unit := PrintLine line (Ret tt).

(** [try: body except <class> as e: handler e].  An exception raised by the
    handler itself is not caught. *)
Fixpoint try_except {A : Type} (body : prog A) (catches : exn -> bool)
    (handler : exn -> prog A) : prog A :=
  match body with
  | Ret a => Ret a
  | Raise e => if catches e then handler e else Raise e
  | SessionGet url timeout k =>
      SessionGet url timeout (fun o => try_except (k o) catches handler)
  | Sleep d k => Sleep d (try_except k catches handler)
  | PrintLine line k => PrintLine line (try_except k catches handler)
  end.

(** ** Running a program against a server *)

Inductive event : Type :=
| EvGet (url : string) (timeout : Z) (o : outcome)
| EvSleep (d : Q)
| EvPrint (line : string).

Definition trace : Type := list event.

(** The remote side: the outcome of a request, given everything that has
    happened so far (requests made and their outcomes, time slept, lines
    printed) and the requested URL. *)
Definition server : Type := trace -> string -> outcome.

Inductive result (A : Type) : Type :=
| Returned (a : A)
| Uncaught (e : exn).

Arguments Returned {A} a.
Arguments Uncaught {A} e.

(** [run srv p tr]: the result of [p] started after history [tr], and the
    events [p] itself performed, in order. *)
Fixpoint run {A : Type} (srv : server) (p : prog A) (tr : trace)
    : result A * trace :=
  match p with
  | Ret a => (Returned a, [])
  | Raise e => (Uncaught e, [])
  | SessionGet url timeout k =>
      let o := srv tr url in
      let ev := EvGet url timeout o in
      let '(r, evs) := run srv (k o) (tr ++ [ev]) in
      (r, ev :: evs)
  | Sleep d k =>
      let '(r, evs) := run srv k (tr ++ [EvSleep d]) in
      (r, EvSleep d :: evs)
  | PrintLine line k =>
      let '(r, evs) := run srv k (tr ++ [EvPrint line]) in
      (r, EvPrint line :: evs)
  end.

(** Projections of a trace. *)
Definition is_get (ev : event) : bool :=
  match ev with EvGet _ _ _ => true | _ => false end.

Definition count_gets (tr : trace) : nat := length (List.filter is_get tr).

Fixpoint sleeps (tr : trace) : list Q :=
  match tr with
  | [] => []
  | EvSleep d :: tr' => d :: sleeps tr'
  | _ :: tr' => sleeps tr'
  end.

Fixpoint printed (tr : trace) : list string :=
  match tr with
  | [] => []
  | EvPrint line :: tr' => line :: printed tr'
  | _ :: tr' => printed tr'
  end.

(** A mock server that replays a fixed sequence of outcomes: the [n]-th
    request of the run, whatever its URL, gets [rs n]. *)
Definition scripted (rs : nat -> outcome) : server :=
  fun tr _ => rs (count_gets tr).

(** ** [fetch_with_retries] *)

(** [f"{n}"] for an integer. *)
Definition str_of_Z (n : Z) : string := pretty n.

(** How one iteration of the [for attempt in range(MAX_RETRIES)] loop ends. *)
Inductive flow : Type :=
| Return (html : string)      (* [return response.text] *)
| Break                       (* [break] *)
| Next (backoff : Z).         (* fall through to the next iteration *)

Definition retry_status (status_code : Z) : bool :=
  (status_code =? 403) || (status_code =? 405) || (status_code =? 429).

Definition next_backoff (backoff : Z) : Z := Z.min (backoff * 2) 30.

Definition attempt_body (url : string) (attempt : nat) (backoff : Z)
    : prog flow :=
  try_except
    (response <- session_get url 15 ;;
     let '(status_code, text) := response in
     if status_code =? 200 then Ret (Return text)
     else if retry_status status_code then
       print ("[WARN] " +:+ str_of_Z status_code +:+ " on " +:+ url
              +:+ ", backing off " +:+ str_of_Z backoff +:+ "s") ;;;
       sleep (inject_Z backoff) ;;;
       Ret (Next (next_backoff backoff))
     else
       print ("[ERROR] Unexpected status " +:+ str_of_Z status_code
              +:+ " on " +:+ url) ;;;
       Ret Break)
    is_RequestException
    (fun e =>
       print ("[ERROR] Exception " +:+ exn_str e +:+ " on " +:+ url
              +:+ ", retry " +:+ str_of_Z (Z.of_nat attempt + 1)) ;;;
       sleep (inject_Z backoff) ;;;
       Ret (Next (next_backoff backoff))).

Fixpoint fetch_loop (url : string) (attempts : list nat) (backoff : Z)
    : prog (option string) :=
  match attempts with
  | [] => Ret None
  | attempt :: rest =>
      f <- attempt_body url attempt backoff ;;
      match f with
      | Return html => Ret (Some html)
      | Break => Ret None
      | Next backoff' => fetch_loop url rest backoff'
      end
  end.

(** [None] is the script's "unavailable". *)
Definition fetch_with_retries (url : string) : prog (option string) :=
  fetch_loop url (seq 0 MAX_RETRIES) 1.

(** ** Python string operations used by the script

    A character is an 8-bit code point (the Latin-1 range of [str]); the
    predicates below are Python's on that range. *)

(** [str.isdigit]: the decimal digits and the superscripts [¹ ² ³]
    (code points 185, 178, 179), which are digits but not decimals. *)
Definition isdigit (c : ascii) : bool :=
  let n := N_of_ascii c in
  ((48 <=? n) && (n <=? 57) || (n =? 178) || (n =? 179) || (n =? 185))%N.

(** [str.isdecimal] on the same range: [0] to [9] only. *)
Definition isdecimal (c : ascii) : bool :=
  let n := N_of_ascii c in ((48 <=? n) && (n <=? 57))%N.

(** [str.isspace]: what [str.strip()] removes. *)
Definition isspace (c : ascii) : bool :=
  let n := N_of_ascii c in
  ((9 <=? n) && (n <=? 13) || (28 <=? n) && (n <=? 32)
   || (n =? 133) || (n =? 160))%N.

Fixpoint str_filter (f : ascii -> bool) (s : string) : string :=
  match s with
  | EmptyString => EmptyString
  | String c s' => if f c then String c (str_filter f s') else str_filter f s'
  end.

Fixpoint lstrip (s : string) : string :=
  match s with
  | EmptyString => EmptyString
  | String c s' => if isspace c then lstrip s' else s
  end.

Fixpoint rstrip (s : string) : string :=
  match s with
  | EmptyString => EmptyString
  | String c s' =>
      match rstrip s' with
      | EmptyString => if isspace c then EmptyString else String c EmptyString
      | t => String c t
      end
  end.

(** [s.strip()] *)
Definition strip (s : string) : string := rstrip (lstrip s).

(** [s.replace(old, new)] for a one-character [old]. *)
Fixpoint replace_char (old : ascii) (new : string) (s : string) : string :=
  match s with
  | EmptyString => EmptyString
  | String c s' =>
      if Ascii.eqb c old then new +:+ replace_char old new s'
      else String c (replace_char old new s')
  end.

(** [sep.join(parts)] for the empty separator. *)
Definition join (parts : list string) : string :=
  fold_right String.append EmptyString parts.

(** [not s] for a string. *)
Definition falsy (s : string) : bool :=
  match s with EmptyString => true | _ => false end.

(** CPython's default [sys.int_max_str_digits]: [int] refuses longer
    decimal strings with a [ValueError]. *)
Definition int_max_str_digits : nat := 4300.

Definition digit_value (c : ascii) : Z := Z.of_N (N_of_ascii c) - 48.

(** Horner evaluation of a string of decimals, most significant first. *)
Fixpoint decimal_value (acc : Z) (s : string) : Z :=
  match s with
  | EmptyString => acc
  | String c s' => decimal_value (10 * acc + digit_value c) s'
  end.

Fixpoint str_forallb (f : ascii -> bool) (s : string) : bool :=
  match s with
  | EmptyString => true
  | String c s' => f c && str_forallb f s'
  end.

(** [int(s)] for a string [s] of [isdigit] characters, which is all the
    script passes to it; [None] is [ValueError]: the empty string, a
    superscript digit, or more than [int_max_str_digits] digits. *)
Definition int_of_digits (s : string) : option Z :=
  if falsy s then None
  else if negb (str_forallb isdecimal s) then None
  else if (int_max_str_digits <? String.length s)%nat then None
  else Some (decimal_value 0 s).

(** ** The parsed page *)

(** What [BeautifulSoup(html, "html.parser")] builds, as far as the script
    looks at it: text strings and tags with a name, the list of their CSS
    classes (the multi-valued [class] attribute), their other attributes and
    their contents. *)
#[warnings="-register-all"]
Inductive node : Type :=
| NavigableString (s : string)
| Tag (name : string) (classes : list string)
      (attrs : list (string * string)) (contents : list node).

(** [tag.descendants]: every node below [n], in document order. *)
Fixpoint descendants (n : node) : list node :=
  match n with
  | NavigableString _ => []
  | Tag _ _ _ contents =>
      (fix go (cs : list node) : list node :=
         match cs with
         | [] => []
         | c :: cs' => c :: descendants c ++ go cs'
         end) contents
  end.

Definition in_strs (x : string) (l : list string) : bool :=
  existsb (String.eqb x) l.

(** Matching of [class_=c]: one of the tag's classes is [c], or the whole
    class attribute is. *)
Definition class_matches (c : string) (classes : list string) : bool :=
  in_strs c classes
  || (negb (length classes =? 0)%nat && String.eqb c (String.concat " " classes)).

(** Does [n] match [find(name, class_=...)]? *)
Definition matches (name : string) (class_ : option string) (n : node) : bool :=
  match n with
  | NavigableString _ => false
  | Tag name' classes _ _ =>
      String.eqb name name'
      && match class_ with
         | None => true
         | Some c => class_matches c classes
         end
  end.

(** [tag.find_all(name, class_=...)] *)
Definition find_all (n : node) (name : string) (class_ : option string)
    : list node :=
  List.filter (matches name class_) (descendants n).

(** [tag.find(name, class_=...)]: the first match, or [None]. *)
Definition find (n : node) (name : string) (class_ : option string)
    : option node :=
  head (find_all n name class_).

(** [soup.select("name.cls")]: the elements called [name] with [cls] among
    their classes, in document order. *)
Definition select (n : node) (name cls : string) : list node :=
  List.filter
    (fun d => match d with
              | NavigableString _ => false
              | Tag name' classes _ _ =>
                  String.eqb name name' && in_strs cls classes
              end) (descendants n).

(** The strings below a tag, in document order. *)
Definition all_strings (n : node) : list string :=
  omap (fun d => match d with
                 | NavigableString s => Some s
                 | Tag _ _ _ _ => None
                 end) (descendants n).

(** [tag.text] *)
Definition get_text (n : node) : string := join (all_strings n).

(** [tag.get_text(strip=True)]: every string stripped, the empty ones
    dropped. *)
Definition get_text_strip (n : node) : string :=
  join (List.filter (fun s => negb (falsy s)) (map strip (all_strings n))).

(** [tag.get(key)] *)
Fixpoint attr_get (attrs : list (string * string)) (key : string)
    : option string :=
  match attrs with
  | [] => None
  | (k, v) :: attrs' => if String.eqb k key then Some v else attr_get attrs' key
  end.

Definition tag_get (n : node) (key : string) : option string :=
  match n with
  | NavigableString _ => None
  | Tag _ _ attrs _ => attr_get attrs key
  end.

Section Scraper.

(** [BeautifulSoup(html, "html.parser")]: the library's parser, from the
    page text to the root of the parsed tree.  It is taken as a function:
    markup that the parser refuses, for which the call raises outside any
    [try], is outside this model. *)
Variable BeautifulSoup : string -> node.

(** ** [get_unit_urls] *)

(** The [for div in unit_divs] loop: the [href] of the first
    [a.wt-tree_item-link] of each item that has one with a non-empty
    [href]. *)
Definition unit_links (unit_divs : list node) : list string :=
  omap (fun div =>
          match find div "a" (Some "wt-tree_item-link") with
          | Some link =>
              match tag_get link "href" with
              | Some href => if falsy href then None else Some href
              | None => None
              end
          | None => None
          end) unit_divs.

Definition get_unit_urls (tech_tree_path : string) : prog (list string) :=
  let url := BASE_URL +:+ "/" +:+ tech_tree_path +:+ "?v=t" in
  let failed :=
    print ("[ERROR] Failed to fetch tech tree page " +:+ url) ;;;
    Ret [] in
  print ("[STEP] Fetching unit URLs from " +:+ url) ;;;
  html <- fetch_with_retries url ;;
  match html with
  | None => failed
  | Some html =>
      if falsy html then failed
      else
        let soup := BeautifulSoup html in
        let unit_divs := select soup "div" "wt-tree_item" in
        print ("[INFO] Found " +:+ str_of_Z (Z.of_nat (length unit_divs))
               +:+ " units in " +:+ tech_tree_path) ;;;
        Ret (unit_links unit_divs)
  end.

(** ** [extract_total_cost] *)

(** The value of a field whose value element was found:
    [int(''.join(filter(str.isdigit, text)))] on the stripped text without
    commas, and [0] on [ValueError]. *)
Definition cost_of_text (stripped_text : string) : Z :=
  let text := replace_char "," EmptyString stripped_text in
  match int_of_digits (str_filter isdigit text) with
  | Some n => n
  | None => 0
  end.

Definition field_cost (div : node) : Z :=
  match find div "span" (Some "game-unit_chars-value") with
  | Some val_span => cost_of_text (get_text_strip val_span)
  | None => 0
  end.

(** The loop over [div.game-unit_chars-line]: the first line whose header
    reads "Talisman cost" decides, and the loop stops there. *)
Fixpoint talisman_loop (talisman_divs : list node) : Z :=
  match talisman_divs with
  | [] => 0
  | div :: rest =>
      match find div "span" (Some "game-unit_chars-header") with
      | Some header =>
          if String.eqb (strip (get_text header)) "Talisman cost"
          then field_cost div
          else talisman_loop rest
      | None => talisman_loop rest
      end
  end.

(** The loop over [div.game-unit_chars-subline]: the first subline whose
    first [span] reads "Aces" decides. *)
Fixpoint aces_loop (aces_divs : list node) : Z :=
  match aces_divs with
  | [] => 0
  | div :: rest =>
      match find div "span" None with
      | Some span =>
          if String.eqb (strip (get_text span)) "Aces"
          then field_cost div
          else aces_loop rest
      | None => aces_loop rest
      end
  end.

Definition talisman_cost_of (soup : node) : Z :=
  talisman_loop (find_all soup "div" (Some "game-unit_chars-line")).

Definition aces_cost_of (soup : node) : Z :=
  aces_loop (find_all soup "div" (Some "game-unit_chars-subline")).

Definition extract_total_cost (unit_url : string) (index total_units : Z)
    : prog Z :=
  sleep REQUEST_DELAY ;;;
  let full_url := BASE_URL +:+ unit_url in
  let failed :=
    print ("[ERROR] Failed to fetch unit page " +:+ full_url) ;;;
    Ret 0 in
  html <- fetch_with_retries full_url ;;
  match html with
  | None => failed
  | Some html =>
      if falsy html then failed
      else
        let soup := BeautifulSoup html in
        let talisman_cost := talisman_cost_of soup in
        let aces_cost := aces_cost_of soup in
        let total := talisman_cost + aces_cost in
        print ("[INFO] Processing unit " +:+ str_of_Z index +:+ "/"
               +:+ str_of_Z total_units +:+ " - " +:+ unit_url +:+ ": "
               +:+ "Talisman=" +:+ str_of_Z talisman_cost
               +:+ ", Aces=" +:+ str_of_Z aces_cost
               +:+ ", Total=" +:+ str_of_Z total) ;;;
        Ret total
  end.

(** ** [main], up to the worker pool *)

Definition tech_trees : list string :=
  ["aviation"; "helicopters"; "ground"; "ships"; "boats"].

(** [for tree in tech_trees: all_unit_urls.extend(get_unit_urls(tree))] *)
Fixpoint collect_unit_urls (trees all_unit_urls : list string)
    : prog (list string) :=
  match trees with
  | [] => Ret all_unit_urls
  | tree :: rest =>
      unit_urls <- get_unit_urls tree ;;
      collect_unit_urls rest (all_unit_urls ++ unit_urls)
  end.

(** The session warm-up.  The session and its fixed headers are implicit in
    [session_get]; the request is made outside any [try]. *)
Definition warm_up : prog unit :=
  print "[STEP] Initializing session with homepage fetch" ;;;
  home_resp <- session_get BASE_URL 10 ;;
  if fst home_resp =? 200 then Ret tt
  else print ("[WARN] Homepage returned " +:+ str_of_Z (fst home_resp)
              +:+ ", continuing anyway").

(** [main] from its first line to [total_cost = 0]: the list of unit URLs
    handed to the pool. *)
Definition main_collect : prog (list string) :=
  warm_up ;;;
  all_unit_urls <- collect_unit_urls tech_trees [] ;;
  let total_units := Z.of_nat (length all_unit_urls) in
  print ("[STEP] Total units found: " +:+ str_of_Z total_units) ;;;
  Ret all_unit_urls.

Definition result_line (total_cost : Z) : string :=
  "[RESULT] Total GE cost of all units: " +:+ str_of_Z total_cost.

(** ** The worker pool

    [executor.submit] creates one future per unit URL, in order; at most
    [workers] of them run at a time, taken from the queue first-in first-out;
    a running task performs its effects one by one against the shared
    history; [as_completed] hands finished futures to the main thread, which
    adds [future.result()] to [total_cost] or re-raises the task's
    exception. *)

Inductive future : Type :=
| Pending (task : prog Z)
| Running (task : prog Z)
| Finished (r : result Z)      (* done, not yet seen by the main thread *)
| Yielded (r : result Z).      (* handed out by [as_completed] *)

Record pool : Type := Pool {
  futures : list future;
  total_cost : Z;
  history : trace;
  raised : option exn           (* the exception [main] is propagating *)
}.

Definition is_pending (f : future) : bool :=
  match f with Pending _ => true | _ => false end.

Definition is_running (f : future) : bool :=
  match f with Running _ => true | _ => false end.

Definition is_yielded (f : future) : bool :=
  match f with Yielded _ => true | _ => false end.

Definition count_running (fs : list future) : nat :=
  length (List.filter is_running fs).

(** One effect of a task. *)
Definition perform {A : Type} (srv : server) (p : prog A) (tr : trace)
    : option (prog A * event) :=
  match p with
  | Ret _ | Raise _ => None
  | SessionGet url timeout k =>
      let o := srv tr url in Some (k o, EvGet url timeout o)
  | Sleep d k => Some (k, EvSleep d)
  | PrintLine line k => Some (k, EvPrint line)
  end.

(** A task that has nothing left to do. *)
Definition final {A : Type} (p : prog A) : option (result A) :=
  match p with
  | Ret a => Some (Returned a)
  | Raise e => Some (Uncaught e)
  | _ => None
  end.

Inductive pool_step (srv : server) (workers : nat) : pool -> pool -> Prop :=
| step_start i task fs total tr exc :
    fs !! i = Some (Pending task) ->
    forallb (fun f => negb (is_pending f)) (take i fs) = true ->
    (count_running fs < workers)%nat ->
    pool_step srv workers
      (Pool fs total tr exc)
      (Pool (<[i := Running task]> fs) total tr exc)
| step_effect i task task' ev fs total tr exc :
    fs !! i = Some (Running task) ->
    perform srv task tr = Some (task', ev) ->
    pool_step srv workers
      (Pool fs total tr exc)
      (Pool (<[i := Running task']> fs) total (tr ++ [ev]) exc)
| step_finish i task r fs total tr exc :
    fs !! i = Some (Running task) ->
    final task = Some r ->
    pool_step srv workers
      (Pool fs total tr exc)
      (Pool (<[i := Finished r]> fs) total tr exc)
| step_result i v fs total tr :
    fs !! i = Some (Finished (Returned v)) ->
    pool_step srv workers
      (Pool fs total tr None)
      (Pool (<[i := Yielded (Returned v)]> fs) (total + v) tr None)
| step_reraise i e fs total tr :
    fs !! i = Some (Finished (Uncaught e)) ->
    pool_step srv workers
      (Pool fs total tr None)
      (Pool (<[i := Yielded (Uncaught e)]> fs) total tr (Some e)).

Inductive pool_steps (srv : server) (workers : nat) : pool -> pool -> Prop :=
| steps_refl s : pool_steps srv workers s s
| steps_step s1 s2 s3 :
    pool_steps srv workers s1 s2 -> pool_step srv workers s2 s3 ->
    pool_steps srv workers s1 s3.

(** The calls [extract(session, url, idx + 1, total_units)] of the
    comprehension over [enumerate(all_unit_urls)], for a detail extractor
    [extract]: one per occurrence of a URL in the list. *)
Definition detail_calls (extract : string -> Z -> Z -> prog Z)
    (all_unit_urls : list string) : list (prog Z) :=
  let total_units := Z.of_nat (length all_unit_urls) in
  imap (fun idx url => extract url (Z.of_nat idx + 1) total_units)
       all_unit_urls.

(** The futures dictionary right after [executor.submit] of each call. *)
Definition submit_all (extract : string -> Z -> Z -> prog Z)
    (all_unit_urls : list string) : list future :=
  map Pending (detail_calls extract all_unit_urls).

(** [main] has left the [with] block normally: every future was handed out
    and none raised. *)
Definition completed (s : pool) : Prop :=
  forallb is_yielded (futures s) = true /\ raised s = None.

(** [main] leaves the [with] block with an exception: the executor has
    waited for the workers, so nothing is pending or running. *)
Definition aborted (s : pool) (e : exn) : Prop :=
  raised s = Some e /\
  forallb (fun f => negb (is_pending f || is_running f)) (futures s) = true.

(** The runs of [main] with [workers] workers and detail extractor
    [extract]: how it ends and everything it did. *)
Inductive main_run (srv : server) (workers : nat)
    (extract : string -> Z -> Z -> prog Z) : result unit -> trace -> Prop :=
| main_collect_raises e tr :
    run srv main_collect [] = (Uncaught e, tr) ->
    main_run srv workers extract (Uncaught e) tr
| main_pool_raises all_unit_urls tr s e :
    run srv main_collect [] = (Returned all_unit_urls, tr) ->
    pool_steps srv workers (Pool (submit_all extract all_unit_urls) 0 tr None) s ->
    aborted s e ->
    main_run srv workers extract (Uncaught e) (history s)
| main_returns all_unit_urls tr s :
    run srv main_collect [] = (Returned all_unit_urls, tr) ->
    pool_steps srv workers (Pool (submit_all extract all_unit_urls) 0 tr None) s ->
    completed s ->
    main_run srv workers extract (Returned tt)
      (history s ++ [EvPrint (result_line (total_cost s))]).

(** The script itself: [CONCURRENT_WORKERS] workers running
    [extract_total_cost]. *)
Definition main (srv : server) : result unit -> trace -> Prop :=
  main_run srv CONCURRENT_WORKERS extract_total_cost.

End Scraper.

(** * Definitions for the statements *)

(** ** Attempts and delays *)

(** The outcomes after which the loop sleeps and goes on. *)
Definition retryable (o : outcome) : bool :=
  match o with
  | Response status_code _ => retry_status status_code
  | Failure e => is_RequestException e
  end.

(** How an attempt ends, from the outcome of its request. *)
Definition attempt_result (backoff : Z) (o : outcome) : result flow :=
  match o with
  | Response status_code text =>
      if status_code =? 200 then Returned (Return text)
      else if retry_status status_code then Returned (Next (next_backoff backoff))
      else Returned Break
  | Failure e =>
      if is_RequestException e then Returned (Next (next_backoff backoff))
      else Uncaught e
  end.

(** What an attempt does after its request. *)
Definition attempt_events (url : string) (attempt : nat) (backoff : Z)
    (o : outcome) : trace :=
  match o with
  | Response status_code text =>
      if status_code =? 200 then []
      else if retry_status status_code then
        [EvPrint ("[WARN] " +:+ str_of_Z status_code +:+ " on " +:+ url
                  +:+ ", backing off " +:+ str_of_Z backoff +:+ "s");
         EvSleep (inject_Z backoff)]
      else
        [EvPrint ("[ERROR] Unexpected status " +:+ str_of_Z status_code
                  +:+ " on " +:+ url)]
  | Failure e =>
      if is_RequestException e then
        [EvPrint ("[ERROR] Exception " +:+ exn_str e +:+ " on " +:+ url
                  +:+ ", retry " +:+ str_of_Z (Z.of_nat attempt + 1));
         EvSleep (inject_Z backoff)]
      else []
  end.

(** The outcomes of the requests of a trace, in order. *)
Fixpoint outcomes (tr : trace) : list outcome :=
  match tr with
  | [] => []
  | EvGet _ _ o :: tr' => o :: outcomes tr'
  | _ :: tr' => outcomes tr'
  end.

(** The delays of [n] consecutive retries that start from [backoff]. *)
Fixpoint backoffs (n : nat) (backoff : Z) : list Z :=
  match n with
  | O => []
  | S n' => backoff :: backoffs n' (next_backoff backoff)
  end.

Definition is_retryable_get (ev : event) : bool :=
  match ev with
  | EvGet _ _ o => retryable o
  | _ => false
  end.

(** The number of requests of a trace that failed in a retryable way. *)
Definition count_retryable (tr : trace) : nat :=
  length (List.filter is_retryable_get tr).

(** ** Log lines of the extractors *)

Definition listing_url (tech_tree_path : string) : string :=
  BASE_URL +:+ "/" +:+ tech_tree_path +:+ "?v=t".

Definition listing_step (tech_tree_path : string) : event :=
  EvPrint ("[STEP] Fetching unit URLs from " +:+ listing_url tech_tree_path).

Definition listing_failed (tech_tree_path : string) : event :=
  EvPrint ("[ERROR] Failed to fetch tech tree page "
           +:+ listing_url tech_tree_path).

Definition unit_failed (unit_url : string) : event :=
  EvPrint ("[ERROR] Failed to fetch unit page " +:+ (BASE_URL +:+ unit_url)).

Definition unit_info (unit_url : string) (index total_units : Z)
    (talisman_cost aces_cost : Z) : event :=
  EvPrint ("[INFO] Processing unit " +:+ str_of_Z index +:+ "/"
           +:+ str_of_Z total_units +:+ " - " +:+ unit_url +:+ ": "
           +:+ "Talisman=" +:+ str_of_Z talisman_cost
           +:+ ", Aces=" +:+ str_of_Z aces_cost
           +:+ ", Total=" +:+ str_of_Z (talisman_cost + aces_cost)).

(** ** Labelled containers *)

Definition is_talisman_line (div : node) : bool :=
  match find div "span" (Some "game-unit_chars-header") with
  | Some header => String.eqb (strip (get_text header)) "Talisman cost"
  | None => false
  end.

Definition is_aces_line (div : node) : bool :=
  match find div "span" None with
  | Some span => String.eqb (strip (get_text span)) "Aces"
  | None => false
  end.

(** ** Example pages and servers *)

Definition chars_line (label value : string) : node :=
  Tag "div" ["game-unit_chars-line"] []
    [Tag "span" ["game-unit_chars-header"] [] [NavigableString label];
     Tag "span" ["game-unit_chars-value"] [] [NavigableString value]].

Definition chars_subline (label value : string) : node :=
  Tag "div" ["game-unit_chars-subline"] []
    [Tag "span" [] [] [NavigableString label];
     Tag "span" ["game-unit_chars-value"] [] [NavigableString value]].

Definition document (body : list node) : node :=
  Tag "[document]" [] [] [Tag "html" [] [] [Tag "body" [] [] body]].

Definition page_talisman_only : node :=
  document [chars_line "Crew" "2 persons"; chars_line "Talisman cost" "1,234"].

Definition page_both : node :=
  document [chars_line "Talisman cost" " 1,000 ";
            Tag "div" ["game-unit_chars-block"] []
              [chars_subline "Basic crew training" "10,000";
               chars_subline "Aces" "250"]].

Definition page_neither : node :=
  document [chars_line "Crew" "2 persons";
            chars_subline "Experts" "35,000"].

(** A server whose every page is there, with this text. *)
Definition always_ok (html : string) : server :=
  fun _ _ => Response 200 html.

(** ** How a task can end *)

(** [ends ok p r]: for some answers of the server, all of them in [ok], the
    program [p] ends with [r]. *)
Inductive ends {A : Type} (ok : outcome -> Prop) : prog A -> result A -> Prop :=
| ends_ret a : ends ok (Ret a) (Returned a)
| ends_raise e : ends ok (Raise e) (Uncaught e)
| ends_get url timeout k o r :
    ok o -> ends ok (k o) r -> ends ok (SessionGet url timeout k) r
| ends_sleep d k r : ends ok k r -> ends ok (Sleep d k) r
| ends_print line k r : ends ok k r -> ends ok (PrintLine line k) r.

(** No restriction on the answers. *)
Definition any_outcome : outcome -> Prop := fun _ => True.

(** The answers of a server that fails with exceptions of the [requests]
    hierarchy only. *)
Definition request_outcome : outcome -> Prop :=
  fun o => match o with
           | Response _ _ => True
           | Failure e => is_RequestException e = true
           end.

(** ** Invariants of the worker pool *)

Definition sumZ (l : list Z) : Z := foldr Z.add 0 l.

(** What a future has added to [total_cost]. *)
Definition yielded_value (f : future) : Z :=
  match f with
  | Yielded (Returned v) => v
  | _ => 0
  end.

Definition yielded_sum (fs : list future) : Z := sumZ (map yielded_value fs).

(** A future in a state its task allows, for answers in [ok]. *)
Definition future_of (ok : outcome -> Prop) (task : prog Z) (f : future)
    : Prop :=
  match f with
  | Pending p => p = task
  | Running p => forall r, ends ok p r -> ends ok task r
  | Finished r | Yielded r => ends ok task r
  end.

Definition no_reraise (f : future) : bool :=
  match f with
  | Yielded (Uncaught _) => false
  | _ => true
  end.

Record pool_inv (ok : outcome -> Prop) (tasks : list (prog Z)) (s : pool)
    : Prop := PoolInv {
  inv_futures : Forall2 (future_of ok) tasks (futures s);
  inv_total : total_cost s = yielded_sum (futures s);
  inv_raised : raised s = None -> forallb no_reraise (futures s) = true;
  inv_reraised : forall e, raised s = Some e ->
                 exists i, futures s !! i = Some (Yielded (Uncaught e))
}.

(** A future the one-task-at-a-time schedule is done with. *)
Definition settled (exc : option exn) (f : future) : bool :=
  match f with
  | Yielded _ => true
  | Finished _ => match exc with Some _ => true | None => false end
  | _ => false
  end.

(** ** More example servers, pages and scripts *)

Definition connection_refused : exn :=
  Exn ConnectionError "Connection refused".

(** The host cannot be reached: every request raises [ConnectionError]. *)
Definition unreachable : server := fun _ _ => Failure connection_refused.

Definition tree_item (href : string) : node :=
  Tag "div" ["wt-tree_item"] []
    [Tag "a" ["wt-tree_item-link"] [("href", href)]
       [Tag "span" ["wt-tree_item-text"] [] [NavigableString "unit"]]].

Definition page_listing : node :=
  document [tree_item "/unit/a"; Tag "div" ["wt-tree_item"] [] [];
            tree_item "/unit/b"].

(** What [main] collects when every category shows [page_listing]. *)
Definition collected_example : list string :=
  ["/unit/a"; "/unit/b"; "/unit/a"; "/unit/b"; "/unit/a";
   "/unit/b"; "/unit/a"; "/unit/b"; "/unit/a"; "/unit/b"].

Definition listing_server : server := always_ok "<html>listing</html>".

Definition script_all_limited : nat -> outcome :=
  fun _ => Response 429 "Too Many Requests".

Definition script_third_ok : nat -> outcome :=
  fun n =>
    match n with
    | 0%nat => Response 429 "Too Many Requests"
    | 1%nat => Failure (Exn ReadTimeout "Read timed out")
    | _ => Response 200 "<html>unit</html>"
    end.

Definition unit_server : server := always_ok "<html>unit</html>".

Definition empty_body : server := always_ok EmptyString.

(** The answers of a server on which every fetch fails: no page is served
    (the status is never 200) and requests fail with exceptions of the
    [requests] hierarchy only. *)
Definition failed_outcome : outcome -> Prop :=
  fun o => match o with
           | Response status_code _ => status_code <> 200
           | Failure e => is_RequestException e = true
           end.

(** A site that serves every unit page but ["/unit/b"], for which the
    connection is refused. *)
Definition half_site (url : string) : outcome :=
  if String.eqb url (BASE_URL +:+ "/unit/b") then Failure connection_refused
  else Response 200 "<html>unit</html>".

(** An exception outside the [requests] hierarchy, and a server whose every
    request raises it. *)
Definition interrupted : exn := Exn OtherError "interrupted".

Definition interrupting : server := fun _ _ => Failure interrupted.

(** * Definitions for the further properties *)

(** ** Requests of a trace *)

(** The URL and timeout of each request of a trace, in order. *)
Fixpoint requests (tr : trace) : list (string * Z) :=
  match tr with
  | [] => []
  | EvGet url timeout _ :: tr' => (url, timeout) :: requests tr'
  | _ :: tr' => requests tr'
  end.

(** ** Links of a listing *)

(** The link an item contributes, if any. *)
Definition unit_link (div : node) : option string :=
  match find div "a" (Some "wt-tree_item-link") with
  | Some link =>
      match tag_get link "href" with
      | Some href => if falsy href then None else Some href
      | None => None
      end
  | None => None
  end.

(** ** The queue of the pool *)

(** The first [n] futures have been started and the other ones are still
    the pending tasks of the queue, in order. *)
Definition queue_from (tasks : list (prog Z)) (fs : list future) (n : nat)
    : Prop :=
  forallb (fun f => negb (is_pending f)) (take n fs) = true
  /\ drop n fs = map Pending (drop n tasks).

Definition is_finished (f : future) : bool :=
  match f with Finished _ => true | _ => false end.

(** ** Servers that answer by URL alone *)

(** A server whose answer depends on the URL only. *)
Definition static (pages : string -> outcome) : server :=
  fun _ url => pages url.

(** [ends_on pages p r]: against [static pages], the program [p] ends
    with [r]. *)
Inductive ends_on {A : Type} (pages : string -> outcome)
    : prog A -> result A -> Prop :=
| ends_on_ret a : ends_on pages (Ret a) (Returned a)
| ends_on_raise e : ends_on pages (Raise e) (Uncaught e)
| ends_on_get url timeout k r :
    ends_on pages (k (pages url)) r ->
    ends_on pages (SessionGet url timeout k) r
| ends_on_sleep d k r : ends_on pages k r -> ends_on pages (Sleep d k) r
| ends_on_print line k r :
    ends_on pages k r -> ends_on pages (PrintLine line k) r.

(** A future in a state its task allows against [static pages]. *)
Definition future_on (pages : string -> outcome) (task : prog Z) (f : future)
    : Prop :=
  match f with
  | Pending p => p = task
  | Running p => forall r, ends_on pages p r -> ends_on pages task r
  | Finished r | Yielded r => ends_on pages task r
  end.


(** The first line [main] prints. *)
Definition warm_up_step : event :=
  EvPrint "[STEP] Initializing session with homepage fetch".

(** ** More examples *)


(** A Talisman line whose label is padded and split in two strings. *)
Definition padded_line : node :=
  Tag "div" ["game-unit_chars-line"] []
    [Tag "span" ["game-unit_chars-header"] []
       [NavigableString "  Talisman"; NavigableString " cost "];
     Tag "span" ["game-unit_chars-value"] [] [NavigableString "1,234"]].

(** * Properties *)

(** ** Running sequenced programs *)

(** The case of an effect in a proof by induction on the program: rewrite
    with the hypothesis for the continuation, then follow what the
    continuation did. *)
Ltac run_effect IH :=
  rewrite IH;
  match goal with
  | |- context [run ?srv ?k ?tr] =>
      destruct (run srv k tr) as [[?|?] ?]; try done
  end;
  repeat match goal with
         | |- context [if ?c ?e then _ else _] => destruct (c e); try done
         end;
  rewrite <- app_assoc; simpl;
  match goal with
  | |- context [run ?srv ?k ?tr] => by destruct (run srv k tr)
  end.

Lemma run_bind {A B : Type} (srv : server) (p : prog A) (f : A -> prog B) :
  forall tr,
    run srv (bind p f) tr =
    match run srv p tr with
    | (Returned a, evs) =>
        let '(r, evs') := run srv (f a) (tr ++ evs) in (r, evs ++ evs')
    | (Uncaught e, evs) => (Uncaught e, evs)
    end.
Proof.
  induction p as [a|e|url timeout k IH|d k IH|line k IH]; intros tr; simpl.
  - rewrite app_nil_r. by destruct (run srv (f a) tr).
  - done.
  - run_effect IH.
  - run_effect IH.
  - run_effect IH.
Qed.

Lemma run_try_except {A : Type} (srv : server) (p : prog A)
    (catches : exn -> bool) (handler : exn -> prog A) :
  forall tr,
    run srv (try_except p catches handler) tr =
    match run srv p tr with
    | (Returned a, evs) => (Returned a, evs)
    | (Uncaught e, evs) =>
        if catches e then
          let '(r, evs') := run srv (handler e) (tr ++ evs) in (r, evs ++ evs')
        else (Uncaught e, evs)
    end.
Proof.
  induction p as [a|e|url timeout k IH|d k IH|line k IH]; intros tr; simpl.
  - done.
  - rewrite app_nil_r. destruct (catches e); [|done].
    by destruct (run srv (handler e) tr).
  - run_effect IH.
  - run_effect IH.
  - run_effect IH.
Qed.

(** ** One attempt of [fetch_with_retries] *)

Lemma run_attempt_body (srv : server) (url : string) (attempt : nat)
    (backoff : Z) (tr : trace) :
  run srv (attempt_body url attempt backoff) tr =
  (attempt_result backoff (srv tr url),
   EvGet url 15 (srv tr url) :: attempt_events url attempt backoff (srv tr url)).
Proof.
  unfold attempt_body. rewrite run_try_except, run_bind.
  cbn [run session_get]. destruct (srv tr url) as [status_code text|e]; cbn [run].
  - cbn [attempt_result attempt_events].
    destruct (status_code =? 200); [done|].
    destruct (retry_status status_code); done.
  - cbn [attempt_result attempt_events].
    destruct (is_RequestException e); done.
Qed.

Lemma retryable_attempt (backoff : Z) (o : outcome) :
  retryable o = true ->
  attempt_result backoff o = Returned (Next (next_backoff backoff)).
Proof.
  destruct o as [status_code text|e]; simpl; intros H; rewrite H; [|done].
  destruct (Z.eqb_spec status_code 200) as [->|]; done.
Qed.

Lemma retryable_events (url : string) (attempt : nat) (backoff : Z)
    (o : outcome) :
  retryable o = true ->
  exists line, attempt_events url attempt backoff o
               = [EvPrint line; EvSleep (inject_Z backoff)].
Proof.
  destruct o as [status_code text|e]; simpl; intros H; rewrite H; [|eauto].
  destruct (Z.eqb_spec status_code 200) as [->|]; [done|eauto].
Qed.

(** ** The retry loop *)

Lemma run_fetch_loop_cons (srv : server) (url : string) (attempt : nat)
    (rest : list nat) (backoff : Z) (tr : trace) :
  run srv (fetch_loop url (attempt :: rest) backoff) tr =
  let o := srv tr url in
  let evs := EvGet url 15 o :: attempt_events url attempt backoff o in
  match attempt_result backoff o with
  | Returned (Return html) => (Returned (Some html), evs)
  | Returned Break => (Returned None, evs)
  | Returned (Next backoff') =>
      let '(r, evs') := run srv (fetch_loop url rest backoff') (tr ++ evs) in
      (r, evs ++ evs')
  | Uncaught e => (Uncaught e, evs)
  end.
Proof.
  cbn [fetch_loop]. rewrite run_bind, run_attempt_body. cbv zeta.
  destruct (attempt_result backoff (srv tr url)) as [[html| |backoff']|e];
    cbn [run]; by rewrite ?app_nil_r.
Qed.

Lemma count_gets_app (tr1 tr2 : trace) :
  count_gets (tr1 ++ tr2) = (count_gets tr1 + count_gets tr2)%nat.
Proof. unfold count_gets. by rewrite List.filter_app, length_app. Qed.

Lemma count_gets_attempt_events (url : string) (attempt : nat) (backoff : Z)
    (o : outcome) :
  count_gets (attempt_events url attempt backoff o) = 0%nat.
Proof.
  destruct o as [status_code text|e]; simpl.
  - destruct (status_code =? 200); [done|].
    by destruct (retry_status status_code).
  - by destruct (is_RequestException e).
Qed.

Lemma count_gets_attempt (url : string) (attempt : nat) (backoff : Z)
    (o : outcome) :
  count_gets (EvGet url 15 o :: attempt_events url attempt backoff o) = 1%nat.
Proof.
  change (S (count_gets (attempt_events url attempt backoff o)) = 1%nat).
  by rewrite count_gets_attempt_events.
Qed.

(** Every attempt fails in a retryable way: the loop uses all its attempts
    and gives up. *)
Lemma fetch_loop_exhausted (rs : nat -> outcome) (url : string) :
  forall (attempts : list nat) (backoff : Z) (tr : trace),
    (forall k, (k < length attempts)%nat ->
               retryable (rs (count_gets tr + k)%nat) = true) ->
    exists evs,
      run (scripted rs) (fetch_loop url attempts backoff) tr
      = (Returned None, evs)
      /\ count_gets evs = length attempts.
Proof.
  induction attempts as [|attempt rest IH]; intros backoff tr Hrs.
  - by exists [].
  - rewrite run_fetch_loop_cons. cbv zeta. unfold scripted at 1 2 3.
    assert (retryable (rs (count_gets tr)) = true) as H0.
    { specialize (Hrs 0%nat). rewrite Nat.add_0_r in Hrs. apply Hrs. simpl. lia. }
    rewrite (retryable_attempt _ _ H0).
    set (evs0 := EvGet url 15 _ :: _).
    destruct (IH (next_backoff backoff) (tr ++ evs0)) as (evs & Hrun & Hn).
    { intros k Hk. rewrite count_gets_app. unfold evs0.
      rewrite count_gets_attempt.
      replace (count_gets tr + 1 + k)%nat with (count_gets tr + S k)%nat by lia.
      apply Hrs. simpl. lia. }
    rewrite Hrun. eexists. split; [done|].
    rewrite count_gets_app, Hn. unfold evs0. by rewrite count_gets_attempt.
Qed.

(** The first [n] attempts fail in a retryable way and the next one gets
    status 200: the loop returns its text after [n + 1] requests. *)
Lemma fetch_loop_success (rs : nat -> outcome) (url text : string) :
  forall (n : nat) (attempts : list nat) (backoff : Z) (tr : trace),
    (n < length attempts)%nat ->
    (forall k, (k < n)%nat -> retryable (rs (count_gets tr + k)%nat) = true) ->
    rs (count_gets tr + n)%nat = Response 200 text ->
    exists evs,
      run (scripted rs) (fetch_loop url attempts backoff) tr
      = (Returned (Some text), evs)
      /\ count_gets evs = S n.
Proof.
  induction n as [|n IH]; intros [|attempt rest] backoff tr Hlen Hrs Hok;
    simpl in Hlen; try lia.
  - rewrite run_fetch_loop_cons. cbv zeta. unfold scripted at 1 2 3.
    rewrite Nat.add_0_r in Hok. rewrite Hok. simpl.
    eexists. split; done.
  - rewrite run_fetch_loop_cons. cbv zeta. unfold scripted at 1 2 3.
    assert (retryable (rs (count_gets tr)) = true) as H0.
    { specialize (Hrs 0%nat). rewrite Nat.add_0_r in Hrs. apply Hrs. lia. }
    rewrite (retryable_attempt _ _ H0).
    set (evs0 := EvGet url 15 _ :: _).
    assert (count_gets (tr ++ evs0) = S (count_gets tr)) as Hc.
    { rewrite count_gets_app. unfold evs0. rewrite count_gets_attempt. lia. }
    destruct (IH rest (next_backoff backoff) (tr ++ evs0)) as (evs & Hrun & Hn).
    + lia.
    + intros k Hk. rewrite Hc.
      replace (S (count_gets tr) + k)%nat with (count_gets tr + S k)%nat by lia.
      apply Hrs. lia.
    + rewrite Hc. rewrite <- Hok. f_equal. lia.
    + rewrite Hrun. eexists. split; [done|].
      rewrite count_gets_app, Hn. unfold evs0. by rewrite count_gets_attempt.
Qed.

(** With failures from the [requests] hierarchy only, the loop returns. *)
Lemma fetch_loop_returns (srv : server) (url : string) :
  (forall tr e, srv tr url = Failure e -> is_RequestException e = true) ->
  forall (attempts : list nat) (backoff : Z) (tr : trace),
    exists html evs,
      run srv (fetch_loop url attempts backoff) tr = (Returned html, evs).
Proof.
  intros Hsrv. induction attempts as [|attempt rest IH]; intros backoff tr.
  - by exists None, [].
  - rewrite run_fetch_loop_cons. cbv zeta.
    destruct (attempt_result backoff (srv tr url)) as [[html| |backoff']|e] eqn:Hres;
      [eauto|eauto| |].
    + destruct (IH backoff' (tr ++ EvGet url 15 (srv tr url)
                  :: attempt_events url attempt backoff (srv tr url)))
        as (html & evs & ->). eauto.
    + exfalso. destruct (srv tr url) as [status_code text|e'] eqn:Ho; simpl in Hres.
      * destruct (status_code =? 200); [done|].
        by destruct (retry_status status_code).
      * rewrite (Hsrv _ _ Ho) in Hres. done.
Qed.

Lemma outcomes_app (tr1 tr2 : trace) :
  outcomes (tr1 ++ tr2) = outcomes tr1 ++ outcomes tr2.
Proof.
  induction tr1 as [|[url timeout o|d|line] tr1 IH]; simpl; by rewrite ?IH.
Qed.

Lemma outcomes_length (tr : trace) : length (outcomes tr) = count_gets tr.
Proof.
  unfold count_gets.
  induction tr as [|[url timeout o|d|line] tr IH]; simpl; by rewrite ?IH.
Qed.

Lemma outcomes_attempt_events (url : string) (attempt : nat) (backoff : Z)
    (o : outcome) :
  outcomes (attempt_events url attempt backoff o) = [].
Proof.
  destruct o as [status_code text|e]; simpl.
  - destruct (status_code =? 200); [done|].
    by destruct (retry_status status_code).
  - by destruct (is_RequestException e).
Qed.

(** The requests of the loop and how it ends, from the outcomes met: the
    loop goes on exactly after a retryable failure. *)
Lemma fetch_loop_outcomes (srv : server) (url : string) :
  forall (attempts : list nat) (backoff : Z) (tr : trace),
    let '(r, evs) := run srv (fetch_loop url attempts backoff) tr in
    (Forall (fun o => retryable o = true) (outcomes evs) ->
     r = Returned None /\ count_gets evs = length attempts)
    /\ (forall (n : nat) (text : string),
          outcomes evs !! n = Some (Response 200 text) ->
          r = Returned (Some text) /\ count_gets evs = S n)
    /\ (count_gets evs <= length attempts)%nat.
Proof.
  induction attempts as [|attempt rest IH]; intros backoff tr.
  - simpl. split; [done|]. split; [|done]. intros n text Hn. done.
  - rewrite run_fetch_loop_cons. cbv zeta.
    set (o := srv tr url). set (evs0 := EvGet url 15 o :: _).
    assert (outcomes evs0 = [o]) as Ho.
    { unfold evs0. simpl. by rewrite outcomes_attempt_events. }
    assert (count_gets evs0 = 1%nat) as Hc by apply count_gets_attempt.
    assert (forall r : result flow,
               attempt_result backoff o = r ->
               (forall backoff', r <> Returned (Next backoff')) ->
               (Forall (fun o => retryable o = true) [o] -> False)
               /\ (forall text, o = Response 200 text ->
                                r = Returned (Return text))) as Hstop.
    { intros r Hres Hnext. split.
      - intros Hall. apply Forall_cons in Hall as [Hretry _].
        rewrite (retryable_attempt _ _ Hretry) in Hres. by eapply Hnext.
      - intros text Hok. by rewrite Hok in Hres. }
    destruct (attempt_result backoff o) as [[html| |backoff']|e] eqn:Hres.
    + destruct (Hstop _ eq_refl ltac:(done)) as [Hno Hok].
      rewrite Ho, Hc. simpl. split; [by intros ?%Hno|]. split; [|lia].
      intros [|n] text Hn; [|done]. simpl in Hn. injection Hn as Hn.
      by injection (Hok text Hn) as ->.
    + destruct (Hstop _ eq_refl ltac:(done)) as [Hno Hok].
      rewrite Ho, Hc. simpl. split; [by intros ?%Hno|]. split; [|lia].
      intros [|n] text Hn; [|done]. simpl in Hn. injection Hn as Hn.
      by specialize (Hok text Hn).
    + clear Hstop. specialize (IH backoff' (tr ++ evs0)).
      destruct (run srv (fetch_loop url rest backoff') (tr ++ evs0)) as [r evs].
      destruct IH as (IHall & IHok & IHle).
      rewrite outcomes_app, count_gets_app, Ho, Hc. simpl.
      split; [|split; [|lia]].
      * intros Hall. apply Forall_cons in Hall as [_ Hall].
        destruct (IHall Hall) as [-> ->]. done.
      * intros [|n] text Hn; simpl in Hn.
        -- injection Hn as Hn. rewrite Hn in Hres. simpl in Hres. done.
        -- destruct (IHok n text Hn) as [-> ->]. done.
    + destruct (Hstop _ eq_refl ltac:(done)) as [Hno Hok].
      rewrite Ho, Hc. simpl. split; [by intros ?%Hno|]. split; [|lia].
      intros [|n] text Hn; [|done]. simpl in Hn. injection Hn as Hn.
      by specialize (Hok text Hn).
Qed.

(** ** Backoff delays *)

Lemma sleeps_app (tr1 tr2 : trace) :
  sleeps (tr1 ++ tr2) = sleeps tr1 ++ sleeps tr2.
Proof.
  induction tr1 as [|[url timeout o|d|line] tr1 IH]; simpl; by rewrite ?IH.
Qed.

Lemma count_retryable_app (tr1 tr2 : trace) :
  count_retryable (tr1 ++ tr2)
  = (count_retryable tr1 + count_retryable tr2)%nat.
Proof. unfold count_retryable. by rewrite List.filter_app, length_app. Qed.

(** An attempt that goes on to the next one slept once, for the current
    backoff, and its request failed in a retryable way; any other attempt
    did not sleep. *)
Lemma attempt_sleeps (url : string) (attempt : nat) (backoff : Z)
    (o : outcome) :
  let evs := EvGet url 15 o :: attempt_events url attempt backoff o in
  match attempt_result backoff o with
  | Returned (Next backoff') =>
      backoff' = next_backoff backoff
      /\ sleeps evs = [inject_Z backoff] /\ count_retryable evs = 1%nat
  | _ => sleeps evs = [] /\ count_retryable evs = 0%nat
  end.
Proof.
  destruct o as [status_code text|e]; cbn.
  - destruct (Z.eqb_spec status_code 200) as [->|_]; [done|].
    unfold count_retryable. simpl.
    destruct (retry_status status_code); done.
  - unfold count_retryable. simpl. destruct (is_RequestException e); done.
Qed.

(** The loop sleeps once per retryable failure, for the successive
    backoffs. *)
Lemma fetch_loop_sleeps (srv : server) (url : string) :
  forall (attempts : list nat) (backoff : Z) (tr : trace),
    let evs := snd (run srv (fetch_loop url attempts backoff) tr) in
    sleeps evs = map inject_Z (backoffs (count_retryable evs) backoff)
    /\ (count_retryable evs <= length attempts)%nat.
Proof.
  induction attempts as [|attempt rest IH]; intros backoff tr; cbv zeta.
  - simpl. split; [done|]. unfold count_retryable. simpl. lia.
  - rewrite run_fetch_loop_cons. cbv zeta.
    pose proof (attempt_sleeps url attempt backoff (srv tr url)) as Hatt.
    cbv zeta in Hatt.
    set (evs0 := EvGet url 15 _ :: _) in *.
    destruct (attempt_result backoff (srv tr url)) as [[html| |backoff']|e].
    + cbn [snd]. destruct Hatt as [-> ->]. simpl. split; [done|lia].
    + cbn [snd]. destruct Hatt as [-> ->]. simpl. split; [done|lia].
    + destruct Hatt as (-> & Hs & Hc).
      specialize (IH (next_backoff backoff) (tr ++ evs0)). cbv zeta in IH.
      destruct (run srv (fetch_loop url rest (next_backoff backoff)) (tr ++ evs0))
        as [r evs]. cbn [snd] in IH |- *. destruct IH as [IHs IHc].
      rewrite sleeps_app, count_retryable_app, Hs, Hc, IHs. simpl.
      split; [done|lia].
    + cbn [snd]. destruct Hatt as [-> ->]. simpl. split; [done|lia].
Qed.

Lemma backoffs_length (n : nat) (backoff : Z) :
  length (backoffs n backoff) = n.
Proof. revert backoff. induction n as [|n IH]; intros; simpl; by rewrite ?IH. Qed.

(** Each delay is the double of the one before, capped at 30. *)
Lemma backoffs_step (n : nat) :
  forall (backoff : Z) (i : nat) (d d' : Z),
    backoffs n backoff !! i = Some d ->
    backoffs n backoff !! S i = Some d' ->
    d' = Z.min (d * 2) 30.
Proof.
  induction n as [|n IH]; intros backoff i d d' Hd Hd'; [done|].
  destruct i as [|i]; simpl in *.
  - destruct n; simpl in *; [done|]. by simplify_eq.
  - eauto.
Qed.

(** No delay is above the ceiling, nor below the first one. *)
Lemma backoffs_bounds (n : nat) :
  forall backoff : Z,
    1 <= backoff <= 30 ->
    Forall (fun d => backoff <= d <= 30) (backoffs n backoff).
Proof.
  induction n as [|n IH]; intros backoff Hb; simpl; constructor; [lia|].
  eapply Forall_impl; [apply IH; unfold next_backoff; lia|].
  simpl. unfold next_backoff. intros d Hd. lia.
Qed.

(** Within [MAX_RETRIES] attempts the ceiling is never reached. *)
Lemma backoffs_max_retries (n : nat) :
  (n <= MAX_RETRIES)%nat -> backoffs n 1 = take n [1; 2; 4; 8; 16].
Proof.
  unfold MAX_RETRIES. intros Hn.
  do 6 (destruct n as [|n]; [done|]). lia.
Qed.

(** ** The two extractors, from the result of their fetch *)

Section Extractors.

Variable BeautifulSoup : string -> node.
Variable srv : server.

Lemma run_get_unit_urls (tech_tree_path : string) (tr : trace) :
  run srv (get_unit_urls BeautifulSoup tech_tree_path) tr =
  let step := listing_step tech_tree_path in
  match run srv (fetch_with_retries (listing_url tech_tree_path)) (tr ++ [step]) with
  | (Returned (Some html), evs) =>
      if falsy html
      then (Returned [], step :: evs ++ [listing_failed tech_tree_path])
      else
        let unit_divs := select (BeautifulSoup html) "div" "wt-tree_item" in
        (Returned (unit_links unit_divs),
         step :: evs ++
           [EvPrint ("[INFO] Found " +:+ str_of_Z (Z.of_nat (length unit_divs))
                     +:+ " units in " +:+ tech_tree_path)])
  | (Returned None, evs) =>
      (Returned [], step :: evs ++ [listing_failed tech_tree_path])
  | (Uncaught e, evs) => (Uncaught e, step :: evs)
  end.
Proof.
  unfold get_unit_urls. cbv zeta.
  change (BASE_URL +:+ "/" +:+ tech_tree_path +:+ "?v=t")
    with (listing_url tech_tree_path).
  cbn [bind print run]. rewrite run_bind.
  fold (listing_step tech_tree_path).
  destruct (run srv (fetch_with_retries _) _) as [[[html|]|e] evs]; [| |done].
  - destruct (falsy html); done.
  - done.
Qed.

Lemma run_extract_total_cost (unit_url : string) (index total_units : Z)
    (tr : trace) :
  run srv (extract_total_cost BeautifulSoup unit_url index total_units) tr =
  let delay := EvSleep REQUEST_DELAY in
  match run srv (fetch_with_retries (BASE_URL +:+ unit_url)) (tr ++ [delay]) with
  | (Returned (Some html), evs) =>
      if falsy html
      then (Returned 0, delay :: evs ++ [unit_failed unit_url])
      else
        let soup := BeautifulSoup html in
        (Returned (talisman_cost_of soup + aces_cost_of soup),
         delay :: evs ++
           [unit_info unit_url index total_units
              (talisman_cost_of soup) (aces_cost_of soup)])
  | (Returned None, evs) =>
      (Returned 0, delay :: evs ++ [unit_failed unit_url])
  | (Uncaught e, evs) => (Uncaught e, delay :: evs)
  end.
Proof.
  unfold extract_total_cost. cbv zeta.
  cbn [bind sleep run]. rewrite run_bind.
  destruct (run srv (fetch_with_retries _) _) as [[[html|]|e] evs]; [| |done].
  - destruct (falsy html); done.
  - done.
Qed.

End Extractors.

(** ** Parsing a cost *)

Lemma str_filter_app (f : ascii -> bool) (s1 s2 : string) :
  str_filter f (s1 +:+ s2) = str_filter f s1 +:+ str_filter f s2.
Proof.
  induction s1 as [|c s1 IH]; simpl; [done|].
  destruct (f c); simpl; by rewrite IH.
Qed.

(** Removing the commas first changes nothing for the digits kept. *)
Lemma str_filter_isdigit_replace_comma (s : string) :
  str_filter isdigit (replace_char "," EmptyString s) = str_filter isdigit s.
Proof.
  induction s as [|c s IH]; [done|]. cbn [replace_char str_filter].
  destruct (Ascii.eqb_spec c ",") as [->|_].
  - exact IH.
  - cbn [str_filter]. by rewrite IH.
Qed.

Lemma cost_of_text_digits (s : string) :
  cost_of_text s =
  match int_of_digits (str_filter isdigit s) with
  | Some n => n
  | None => 0
  end.
Proof.
  unfold cost_of_text. cbv zeta.
  by rewrite str_filter_isdigit_replace_comma.
Qed.

Lemma digit_value_bounds (c : ascii) :
  isdecimal c = true -> 0 <= digit_value c <= 9.
Proof.
  unfold isdecimal, digit_value. cbv zeta.
  intros [H1 H2]%andb_prop. apply N.leb_le in H1, H2. lia.
Qed.

Lemma decimal_value_nonneg (s : string) :
  forall acc, str_forallb isdecimal s = true -> 0 <= acc ->
              0 <= decimal_value acc s.
Proof.
  induction s as [|c s IH]; simpl; intros acc Hs Hacc; [done|].
  apply andb_prop in Hs as [Hc Hs]. apply IH; [done|].
  pose proof (digit_value_bounds c Hc). lia.
Qed.

Lemma int_of_digits_nonneg (s : string) (n : Z) :
  int_of_digits s = Some n -> 0 <= n.
Proof.
  unfold int_of_digits. destruct (falsy s); [done|].
  destruct (str_forallb isdecimal s) eqn:Hs; [|done]. simpl.
  destruct (int_max_str_digits <? String.length s)%nat; [done|].
  intros [= <-]. by apply decimal_value_nonneg.
Qed.

Lemma cost_of_text_nonneg (s : string) : 0 <= cost_of_text s.
Proof.
  unfold cost_of_text. destruct (int_of_digits _) as [n|] eqn:Hn; [|done].
  by eapply int_of_digits_nonneg.
Qed.

Lemma field_cost_nonneg (div : node) : 0 <= field_cost div.
Proof.
  unfold field_cost. destruct (find div _ _); [apply cost_of_text_nonneg|done].
Qed.

(** Each loop stops at the first container with the right label. *)
Lemma talisman_loop_find (talisman_divs : list node) :
  talisman_loop talisman_divs =
  match List.find is_talisman_line talisman_divs with
  | Some div => field_cost div
  | None => 0
  end.
Proof.
  induction talisman_divs as [|div rest IH]; simpl; [done|].
  unfold is_talisman_line at 1.
  destruct (find div "span" (Some "game-unit_chars-header")) as [header|]; [|done].
  by destruct (String.eqb _ _).
Qed.

Lemma aces_loop_find (aces_divs : list node) :
  aces_loop aces_divs =
  match List.find is_aces_line aces_divs with
  | Some div => field_cost div
  | None => 0
  end.
Proof.
  induction aces_divs as [|div rest IH]; simpl; [done|].
  unfold is_aces_line at 1.
  destruct (find div "span" None) as [span|]; [|done].
  by destruct (String.eqb _ _).
Qed.

Lemma talisman_cost_nonneg (soup : node) : 0 <= talisman_cost_of soup.
Proof.
  unfold talisman_cost_of. rewrite talisman_loop_find.
  destruct (List.find _ _); [apply field_cost_nonneg|done].
Qed.

Lemma aces_cost_nonneg (soup : node) : 0 <= aces_cost_of soup.
Proof.
  unfold aces_cost_of. rewrite aces_loop_find.
  destruct (List.find _ _); [apply field_cost_nonneg|done].
Qed.

(** ** How a task can end *)

Section Ends.

Context {A : Type}.
Variable ok : outcome -> Prop.

Lemma run_ends (srv : server) (p : prog A) :
  (forall tr url, ok (srv tr url)) ->
  forall tr, ends ok p (fst (run srv p tr)).
Proof.
  intros Hsrv.
  induction p as [a|e|url timeout k IH|d k IH|line k IH]; intros tr; simpl.
  - constructor.
  - constructor.
  - specialize (IH (srv tr url) (tr ++ [EvGet url timeout (srv tr url)])).
    destruct (run srv (k _) _). econstructor; [apply Hsrv|exact IH].
  - specialize (IH (tr ++ [EvSleep d])).
    destruct (run srv k _). by constructor.
  - specialize (IH (tr ++ [EvPrint line])).
    destruct (run srv k _). by constructor.
Qed.

Lemma ends_bind {B : Type} (p : prog A) (f : A -> prog B) (r : result B) :
  ends ok (bind p f) r ->
  (exists a, ends ok p (Returned a) /\ ends ok (f a) r)
  \/ (exists e, ends ok p (Uncaught e) /\ r = Uncaught e).
Proof.
  induction p as [a|e|url timeout k IH|d k IH|line k IH]; simpl; intros H.
  - left. exists a. split; [constructor|done].
  - inversion H; subst. right. exists e. split; [constructor|done].
  - inversion H; subst.
    match goal with Hk : ends ok (bind (k ?o) f) r |- _ =>
      destruct (IH o Hk) as [(a & Ha & Hf)|(e & He & ->)] end.
    + left. exists a. split; [by econstructor|done].
    + right. exists e. split; [by econstructor|done].
  - inversion H; subst.
    match goal with Hk : ends ok (bind k f) r |- _ =>
      destruct (IH Hk) as [(a & Ha & Hf)|(e & He & ->)] end.
    + left. exists a. split; [by constructor|done].
    + right. exists e. split; [by constructor|done].
  - inversion H; subst.
    match goal with Hk : ends ok (bind k f) r |- _ =>
      destruct (IH Hk) as [(a & Ha & Hf)|(e & He & ->)] end.
    + left. exists a. split; [by constructor|done].
    + right. exists e. split; [by constructor|done].
Qed.

Lemma ends_try_except (p : prog A) (catches : exn -> bool)
    (handler : exn -> prog A) (r : result A) :
  ends ok (try_except p catches handler) r ->
  (exists a, ends ok p (Returned a) /\ r = Returned a)
  \/ (exists e, ends ok p (Uncaught e) /\
                if catches e then ends ok (handler e) r else r = Uncaught e).
Proof.
  induction p as [a|e|url timeout k IH|d k IH|line k IH]; simpl; intros H.
  - inversion H; subst. left. exists a. split; [constructor|done].
  - right. exists e. split; [constructor|].
    destruct (catches e); [done|]. by inversion H.
  - inversion H; subst.
    match goal with Hk : ends ok (try_except (k ?o) _ _) r |- _ =>
      destruct (IH o Hk) as [(a & Ha & ->)|(e & He & Hc)] end.
    + left. exists a. split; [by econstructor|done].
    + right. exists e. split; [by econstructor|done].
  - inversion H; subst.
    match goal with Hk : ends ok (try_except k _ _) r |- _ =>
      destruct (IH Hk) as [(a & Ha & ->)|(e & He & Hc)] end.
    + left. exists a. split; [by constructor|done].
    + right. exists e. split; [by constructor|done].
  - inversion H; subst.
    match goal with Hk : ends ok (try_except k _ _) r |- _ =>
      destruct (IH Hk) as [(a & Ha & ->)|(e & He & Hc)] end.
    + left. exists a. split; [by constructor|done].
    + right. exists e. split; [by constructor|done].
Qed.

Lemma perform_ends (srv : server) (p p' : prog A) (tr : trace)
    (ev : event) (r : result A) :
  (forall tr url, ok (srv tr url)) ->
  perform srv p tr = Some (p', ev) -> ends ok p' r -> ends ok p r.
Proof.
  intros Hsrv.
  destruct p as [a|e|url timeout k|d k|line k]; simpl; intros [= <- <-] H;
    by econstructor.
Qed.

Lemma final_ends (p : prog A) (r : result A) :
  final p = Some r -> ends ok p r.
Proof.
  destruct p as [a|e|url timeout k|d k|line k]; simpl; intros [= <-];
    constructor.
Qed.

Lemma ends_print_ret (line : string) (a : A) (r : result A) :
  ends ok (print line ;;; Ret a) r -> r = Returned a.
Proof.
  simpl. intros H. inversion H as [| | | |? ? ? H']; subst.
  by inversion H'.
Qed.

End Ends.

Lemma ends_any {A : Type} (ok : outcome -> Prop) (p : prog A) (r : result A) :
  ends ok p r -> ends any_outcome p r.
Proof. induction 1; by econstructor. Qed.

(** Whatever the server answers, a detail call that returns, returns a
    non-negative cost. *)
Lemma extract_total_cost_ends_nonneg (BeautifulSoup : string -> node)
    (unit_url : string) (index total_units v : Z) :
  ends any_outcome
       (extract_total_cost BeautifulSoup unit_url index total_units)
       (Returned v) ->
  0 <= v.
Proof.
  unfold extract_total_cost. cbv zeta. intros H.
  apply ends_bind in H as [(_ & _ & H)|(e & _ & [=])].
  apply ends_bind in H as [(html & _ & H)|(e & _ & [=])].
  destruct html as [html|].
  - destruct (falsy html).
    + apply ends_print_ret in H as [= ->]. done.
    + apply ends_print_ret in H as [= ->].
      pose proof (talisman_cost_nonneg (BeautifulSoup html)).
      pose proof (aces_cost_nonneg (BeautifulSoup html)). lia.
  - apply ends_print_ret in H as [= ->]. done.
Qed.

(** ** Invariants of the worker pool *)

Lemma yielded_sum_insert (fs : list future) (i : nat) (f f' : future) :
  fs !! i = Some f ->
  yielded_sum (<[i := f']> fs)
  = yielded_sum fs - yielded_value f + yielded_value f'.
Proof.
  revert i. induction fs as [|f0 fs IH]; intros [|i] H; try done.
  - simpl in H. injection H as ->. unfold yielded_sum. simpl. lia.
  - simpl in H. unfold yielded_sum in *. simpl. rewrite (IH i H). lia.
Qed.

Lemma forallb_insert {A : Type} (f : A -> bool) (l : list A) (i : nat) (x : A) :
  forallb f l = true -> f x = true -> forallb f (<[i := x]> l) = true.
Proof.
  revert i. induction l as [|y l IH]; intros [|i] Hl Hx; try done; simpl in *.
  - apply andb_prop in Hl as [_ Hl]. by rewrite Hx, Hl.
  - apply andb_prop in Hl as [Hy Hl]. by rewrite Hy, IH.
Qed.

Lemma future_of_insert (ok : outcome -> Prop) (tasks : list (prog Z))
    (fs : list future) (i : nat) (f f' : future) :
  Forall2 (future_of ok) tasks fs ->
  fs !! i = Some f ->
  (forall task, future_of ok task f -> future_of ok task f') ->
  Forall2 (future_of ok) tasks (<[i := f']> fs).
Proof.
  intros Hall Hi Hf.
  destruct (Forall2_lookup_r _ _ _ _ _ Hall Hi) as (task & Htask & Hof).
  rewrite <- (list_insert_id tasks i task Htask).
  apply Forall2_insert; [done|]. by apply Hf.
Qed.

(** A future already handed out is never touched again. *)
Lemma reraised_insert (fs : list future) (i : nat) (f f' : future) (e : exn) :
  fs !! i = Some f -> is_yielded f = false ->
  (exists j, fs !! j = Some (Yielded (Uncaught e))) ->
  exists j, <[i := f']> fs !! j = Some (Yielded (Uncaught e)).
Proof.
  intros Hi Hf [j Hj]. exists j.
  rewrite list_lookup_insert_ne; [done|]. intros <-.
  rewrite Hi in Hj. injection Hj as ->. done.
Qed.

Lemma pool_init_inv (ok : outcome -> Prop) (tasks : list (prog Z))
    (tr : trace) :
  pool_inv ok tasks (Pool (map Pending tasks) 0 tr None).
Proof.
  split; simpl.
  - induction tasks; constructor; done.
  - unfold yielded_sum. induction tasks as [|task tasks IH]; simpl; [done|lia].
  - intros _. induction tasks; simpl; done.
  - done.
Qed.

Lemma pool_step_inv (ok : outcome -> Prop) (srv : server) (workers : nat)
    (tasks : list (prog Z)) (s s' : pool) :
  (forall tr url, ok (srv tr url)) ->
  pool_inv ok tasks s -> pool_step srv workers s s' -> pool_inv ok tasks s'.
Proof.
  intros Hsrv [Hfs Htot Hexc Hre] Hstep.
  destruct Hstep as [i task fs total tr exc Hi _ _
                    |i task task' ev fs total tr exc Hi Hperf
                    |i task r fs total tr exc Hi Hfin
                    |i v fs total tr Hi
                    |i e fs total tr Hi]; simpl in *.
  - split; simpl.
    + eapply future_of_insert; [done..|]. simpl. by intros task0 <-.
    + rewrite (yielded_sum_insert _ _ _ _ Hi). simpl. lia.
    + intros ->. by apply forallb_insert; [apply Hexc|].
    + intros e He. eapply reraised_insert; [done..|]. by apply Hre.
  - split; simpl.
    + eapply future_of_insert; [done..|]. simpl. intros task0 H r Hr.
      apply H. by eapply perform_ends.
    + rewrite (yielded_sum_insert _ _ _ _ Hi). simpl. lia.
    + intros ->. by apply forallb_insert; [apply Hexc|].
    + intros e He. eapply reraised_insert; [done..|]. by apply Hre.
  - split; simpl.
    + eapply future_of_insert; [done..|]. simpl. intros task0 H.
      apply H. by apply final_ends.
    + rewrite (yielded_sum_insert _ _ _ _ Hi). simpl. lia.
    + intros ->. by apply forallb_insert; [apply Hexc|].
    + intros e He. eapply reraised_insert; [done..|]. by apply Hre.
  - split; simpl.
    + eapply future_of_insert; [done..|]. done.
    + rewrite (yielded_sum_insert _ _ _ _ Hi). simpl. lia.
    + intros _. by apply forallb_insert; [apply Hexc|].
    + done.
  - split; simpl.
    + eapply future_of_insert; [done..|]. done.
    + rewrite (yielded_sum_insert _ _ _ _ Hi). simpl. lia.
    + done.
    + intros e' [= <-]. exists i. apply list_lookup_insert_eq.
      by eapply lookup_lt_Some.
Qed.

Lemma pool_steps_inv (ok : outcome -> Prop) (srv : server) (workers : nat)
    (tasks : list (prog Z)) (s s' : pool) :
  (forall tr url, ok (srv tr url)) ->
  pool_inv ok tasks s -> pool_steps srv workers s s' -> pool_inv ok tasks s'.
Proof.
  intros Hsrv Hinv Hsteps. induction Hsteps as [s|s1 s2 s3 _ IH Hstep]; [done|].
  eapply pool_step_inv; [done| |done]. by apply IH.
Qed.

(** When [main] leaves the pool normally, every task has returned a cost
    and [total_cost] is their sum. *)
Lemma completed_total (ok : outcome -> Prop) (tasks : list (prog Z))
    (s : pool) :
  pool_inv ok tasks s -> completed s ->
  exists costs : list Z,
    Forall2 (fun task v => ends ok task (Returned v)) tasks costs
    /\ futures s = map (fun v => Yielded (Returned v)) costs
    /\ total_cost s = sumZ costs.
Proof.
  intros [Hfs Htot Hexc _] [Hy Hnone]. specialize (Hexc Hnone).
  rewrite Htot. clear Htot Hnone.
  induction Hfs as [|task f tasks fs Hf Hfs IH]; simpl in *.
  - by exists [].
  - apply andb_prop in Hy as [Hyf Hy]. apply andb_prop in Hexc as [Hef He].
    destruct (IH He Hy) as (costs & Hcosts & -> & Hsum).
    destruct f as [p|p|r|[v|e]]; try done.
    exists (v :: costs). split; [by constructor|]. split; [done|].
    unfold yielded_sum in *. simpl. by rewrite Hsum.
Qed.

(** ** Tasks against servers that fail with request exceptions only *)

Lemma attempt_body_ends (url : string) (attempt : nat) (backoff : Z)
    (r : result flow) :
  ends request_outcome (attempt_body url attempt backoff) r ->
  exists f, r = Returned f.
Proof.
  unfold attempt_body. intros H.
  apply ends_try_except in H as [(f & _ & ->)|(e & He & Hc)]; [eauto|].
  assert (is_RequestException e = true) as Hreq.
  { apply ends_bind in He as [(resp & _ & He)|(e' & He & [= <-])].
    - destruct resp as [status_code text].
      destruct (status_code =? 200); [inversion He|].
      destruct (retry_status status_code).
      + apply ends_bind in He as [(_ & _ & He)|(e' & He & [= <-])].
        * apply ends_bind in He as [(_ & _ & He)|(e' & He & [= <-])].
          -- inversion He.
          -- inversion He as [| | | ? ? ? He'|]; subst. inversion He'.
        * inversion He as [| | | |? ? ? He']; subst. inversion He'.
      + apply ends_print_ret in He. done.
    - unfold session_get in He.
      inversion He as [| |? ? ? o ? Hok Hk| |]; subst.
      destruct o as [status_code text|e']; inversion Hk; subst. exact Hok. }
  rewrite Hreq in Hc.
  apply ends_bind in Hc as [(_ & _ & Hc)|(e' & Hc & _)].
  - apply ends_bind in Hc as [(_ & _ & Hc)|(e' & Hc & _)].
    + inversion Hc; subst. eauto.
    + inversion Hc as [| | | ? ? ? Hc'|]; subst. inversion Hc'.
  - inversion Hc as [| | | |? ? ? Hc']; subst. inversion Hc'.
Qed.

Lemma fetch_loop_ends (url : string) :
  forall (attempts : list nat) (backoff : Z) (r : result (option string)),
    ends request_outcome (fetch_loop url attempts backoff) r ->
    exists html, r = Returned html.
Proof.
  induction attempts as [|attempt rest IH]; intros backoff r H;
    cbn [fetch_loop] in H.
  - inversion H; subst. eauto.
  - apply ends_bind in H as [(f & _ & H)|(e & He & _)].
    + destruct f as [html| |backoff']; [inversion H; subst; eauto..|].
      by eapply IH.
    + apply attempt_body_ends in He as [f [=]].
Qed.

(** A detail call never raises and returns a non-negative cost. *)
Lemma extract_total_cost_ends (BeautifulSoup : string -> node)
    (unit_url : string) (index total_units : Z) (r : result Z) :
  ends request_outcome
       (extract_total_cost BeautifulSoup unit_url index total_units) r ->
  exists v, r = Returned v /\ 0 <= v.
Proof.
  intros H.
  assert (exists v, r = Returned v) as [v ->].
  { unfold extract_total_cost in H. cbv zeta in H.
    apply ends_bind in H as [(_ & _ & H)|(e & He & _)].
    - apply ends_bind in H as [(html & _ & H)|(e & He & _)].
      + destruct html as [html|]; [destruct (falsy html)|];
          apply ends_print_ret in H; eauto.
      + apply fetch_loop_ends in He as [html [=]].
    - inversion He as [| | | ? ? ? He'|]; subst. inversion He'. }
  exists v. split; [done|].
  eapply extract_total_cost_ends_nonneg, ends_any, H.
Qed.

(** With such a server no future of detail calls ever holds an exception,
    and [main] never propagates one out of the pool. *)
Lemma detail_pool_never_raises (BeautifulSoup : string -> node)
    (srv : server) (workers : nat) (all_unit_urls : list string)
    (tr0 : trace) (s : pool) :
  (forall tr url, request_outcome (srv tr url)) ->
  pool_steps srv workers
    (Pool (submit_all (extract_total_cost BeautifulSoup) all_unit_urls)
          0 tr0 None) s ->
  raised s = None.
Proof.
  intros Hsrv Hsteps.
  pose proof (pool_steps_inv request_outcome _ _ _ _ _ Hsrv
                (pool_init_inv _ _ tr0) Hsteps) as [Hfs _ _ Hre].
  destruct (raised s) as [e|]; [exfalso|done].
  destruct (Hre e eq_refl) as [i Hi].
  destruct (Forall2_lookup_r _ _ _ _ _ Hfs Hi) as (call & Hcall & Hends).
  unfold detail_calls in Hcall. rewrite list_lookup_imap in Hcall.
  destruct (all_unit_urls !! i) as [url|]; [|done].
  simpl in Hcall, Hends. simplify_eq.
  apply extract_total_cost_ends in Hends as (v & [=] & _).
Qed.

(** [total_cost] never decreases when the tasks return non-negative
    costs. *)
Lemma pool_step_total_mono (ok : outcome -> Prop) (srv : server)
    (workers : nat) (tasks : list (prog Z)) (s s' : pool) :
  Forall (fun task => forall v, ends ok task (Returned v) -> 0 <= v) tasks ->
  pool_inv ok tasks s -> pool_step srv workers s s' ->
  total_cost s <= total_cost s'.
Proof.
  intros Hpos [Hfs _ _ _] Hstep.
  destruct Hstep as [| | |i v fs total tr Hi|]; simpl in *; try lia.
  destruct (Forall2_lookup_r _ _ _ _ _ Hfs Hi) as (task & Htask & Hends).
  rewrite Forall_lookup in Hpos. specialize (Hpos i task Htask v Hends). lia.
Qed.

Lemma detail_calls_nonneg (BeautifulSoup : string -> node)
    (all_unit_urls : list string) :
  Forall (fun task => forall v, ends any_outcome task (Returned v) -> 0 <= v)
         (detail_calls (extract_total_cost BeautifulSoup) all_unit_urls).
Proof.
  apply Forall_lookup. intros i task Htask v Hends.
  unfold detail_calls in Htask. rewrite list_lookup_imap in Htask.
  destruct (all_unit_urls !! i) as [url|]; [|done].
  simpl in Htask. simplify_eq. by eapply extract_total_cost_ends_nonneg.
Qed.

Lemma sumZ_nonneg (l : list Z) : Forall (fun v => 0 <= v) l -> 0 <= sumZ l.
Proof. induction 1; simpl; [done|]. unfold sumZ in *. simpl. lia. Qed.

Lemma costs_nonneg (ok : outcome -> Prop) (tasks : list (prog Z))
    (costs : list Z) :
  Forall (fun task => forall v, ends ok task (Returned v) -> 0 <= v) tasks ->
  Forall2 (fun task v => ends ok task (Returned v)) tasks costs ->
  Forall (fun v => 0 <= v) costs.
Proof.
  intros Hpos Hcosts. induction Hcosts as [|task v tasks costs Hv _ IH];
    [constructor|].
  inversion Hpos as [|? ? Htask Htasks]; subst.
  constructor; [by apply Htask|by apply IH].
Qed.

(** ** A complete run always exists

    The schedule that runs one task at a time, each to its end, then hands
    its future to the main thread. *)

Lemma pool_steps_trans (srv : server) (workers : nat) (s1 s2 s3 : pool) :
  pool_steps srv workers s1 s2 -> pool_steps srv workers s2 s3 ->
  pool_steps srv workers s1 s3.
Proof.
  intros H12 H23. induction H23 as [s|s2 s3 s4 _ IH Hstep]; [done|].
  eapply steps_step; [|done]. by apply IH.
Qed.

Lemma pool_steps_one (srv : server) (workers : nat) (s1 s2 : pool) :
  pool_step srv workers s1 s2 -> pool_steps srv workers s1 s2.
Proof. intros H. eapply steps_step; [apply steps_refl|done]. Qed.

Lemma insert_middle {A : Type} (l1 l2 : list A) (x y : A) :
  <[length l1 := y]> (l1 ++ x :: l2) = l1 ++ y :: l2.
Proof. rewrite insert_app_r_alt by lia. by rewrite Nat.sub_diag. Qed.

(** A running task can be taken to its end, as [run] does. *)
Lemma run_task_steps (srv : server) (workers : nat) (p : prog Z) :
  forall (done rest : list future) (total : Z) (tr : trace) (exc : option exn),
    pool_steps srv workers
      (Pool (done ++ Running p :: rest) total tr exc)
      (Pool (done ++ Finished (fst (run srv p tr)) :: rest) total
            (tr ++ snd (run srv p tr)) exc).
Proof.
  induction p as [a|e|url timeout k IH|d k IH|line k IH];
    intros done rest total tr exc; simpl.
  - rewrite app_nil_r. apply pool_steps_one.
    rewrite <- (insert_middle done rest (Running (Ret a)) (Finished (Returned a))).
    eapply step_finish; [apply list_lookup_middle|]; done.
  - rewrite app_nil_r. apply pool_steps_one.
    rewrite <- (insert_middle done rest (Running (Raise e)) (Finished (Uncaught e))).
    eapply step_finish; [apply list_lookup_middle|]; done.
  - eapply pool_steps_trans.
    { apply pool_steps_one.
      eapply (step_effect _ _ (length done));
        [apply list_lookup_middle; done|done]. }
    rewrite insert_middle.
    specialize (IH (srv tr url) done rest total
                   (tr ++ [EvGet url timeout (srv tr url)]) exc).
    destruct (run srv (k _) _) as [r evs]. simpl in *.
    by rewrite <- app_assoc in IH.
  - eapply pool_steps_trans.
    { apply pool_steps_one.
      eapply (step_effect _ _ (length done));
        [apply list_lookup_middle; done|done]. }
    rewrite insert_middle.
    specialize (IH done rest total (tr ++ [EvSleep d]) exc).
    destruct (run srv k _) as [r evs]. simpl in *.
    by rewrite <- app_assoc in IH.
  - eapply pool_steps_trans.
    { apply pool_steps_one.
      eapply (step_effect _ _ (length done));
        [apply list_lookup_middle; done|done]. }
    rewrite insert_middle.
    specialize (IH done rest total (tr ++ [EvPrint line]) exc).
    destruct (run srv k _) as [r evs]. simpl in *.
    by rewrite <- app_assoc in IH.
Qed.

Lemma settled_not_pending (exc : option exn) (done : list future) :
  forallb (settled exc) done = true ->
  forallb (fun f => negb (is_pending f)) done = true.
Proof.
  induction done as [|f done IH]; simpl; [done|].
  intros [Hf Hd]%andb_prop. rewrite IH by done. by destruct f.
Qed.

Lemma settled_count_running (exc : option exn) (done : list future)
    (rest : list (prog Z)) :
  forallb (settled exc) done = true ->
  count_running (done ++ map Pending rest) = 0%nat.
Proof.
  unfold count_running. rewrite List.filter_app, length_app.
  intros Hd.
  assert (List.filter is_running (map Pending rest) = []) as ->.
  { induction rest; simpl; done. }
  simpl. rewrite Nat.add_0_r. clear rest.
  induction done as [|f done IH]; simpl in *; [done|].
  apply andb_prop in Hd as [Hf Hd]. destruct f; try done; simpl; auto.
Qed.

Lemma settled_snoc (exc : option exn) (done : list future) (f : future) :
  forallb (settled exc) done = true -> settled exc f = true ->
  forallb (settled exc) (done ++ [f]) = true.
Proof. intros Hd Hf. rewrite forallb_app. simpl. by rewrite Hd, Hf. Qed.

Lemma settled_raised (e : exn) (done : list future) :
  forallb (settled None) done = true ->
  forallb (settled (Some e)) done = true.
Proof.
  induction done as [|f done IH]; simpl; [done|].
  intros [Hf Hd]%andb_prop. rewrite IH by done. by destruct f.
Qed.

Lemma sequential_schedule (srv : server) (workers : nat) :
  (1 <= workers)%nat ->
  forall (rest : list (prog Z)) (done : list future) (total : Z) (tr : trace)
         (exc : option exn),
    forallb (settled exc) done = true ->
    exists s,
      pool_steps srv workers (Pool (done ++ map Pending rest) total tr exc) s
      /\ forallb (settled (raised s)) (futures s) = true.
Proof.
  intros Hw. induction rest as [|p rest IH]; intros done total tr exc Hd.
  - exists (Pool done total tr exc). simpl. rewrite app_nil_r.
    split; [apply steps_refl|done].
  - assert (pool_steps srv workers
              (Pool (done ++ map Pending (p :: rest)) total tr exc)
              (Pool (done ++ Finished (fst (run srv p tr)) :: map Pending rest)
                    total (tr ++ snd (run srv p tr)) exc)) as Hrun.
    { eapply pool_steps_trans; [|apply run_task_steps].
      apply pool_steps_one. simpl.
      rewrite <- (insert_middle done (map Pending rest) (Pending p) (Running p)).
      apply step_start.
      - by apply list_lookup_middle.
      - rewrite take_app_length. by eapply settled_not_pending.
      - change (Pending p :: map Pending rest) with (map Pending (p :: rest)).
        rewrite (settled_count_running exc) by done. lia. }
    set (tr' := tr ++ snd (run srv p tr)) in *.
    destruct exc as [e0|].
    + destruct (IH (done ++ [Finished (fst (run srv p tr))]) total tr' (Some e0))
        as (s & Hs & Hfin); [by apply settled_snoc|].
      rewrite <- app_assoc in Hs. cbn [app] in Hs. exists s. split; [|done].
      by eapply pool_steps_trans.
    + destruct (fst (run srv p tr)) as [v|e].
      * destruct (IH (done ++ [Yielded (Returned v)]) (total + v) tr' None)
          as (s & Hs & Hfin); [by apply settled_snoc|].
        rewrite <- app_assoc in Hs. cbn [app] in Hs. exists s. split; [|done].
        eapply pool_steps_trans; [exact Hrun|].
        eapply pool_steps_trans; [|exact Hs].
        apply pool_steps_one.
        rewrite <- (insert_middle done (map Pending rest) (Finished (Returned v))
                     (Yielded (Returned v))).
        apply step_result. by apply list_lookup_middle.
      * destruct (IH (done ++ [Yielded (Uncaught e)]) total tr' (Some e))
          as (s & Hs & Hfin); [by apply settled_snoc; [apply settled_raised|]|].
        rewrite <- app_assoc in Hs. cbn [app] in Hs. exists s. split; [|done].
        eapply pool_steps_trans; [exact Hrun|].
        eapply pool_steps_trans; [|exact Hs].
        apply pool_steps_one.
        rewrite <- (insert_middle done (map Pending rest) (Finished (Uncaught e))
                     (Yielded (Uncaught e))).
        apply step_reraise. by apply list_lookup_middle.
Qed.

Lemma settled_completed (s : pool) :
  forallb (settled (raised s)) (futures s) = true ->
  raised s = None -> completed s.
Proof.
  intros Hs Hnone. split; [|done]. rewrite Hnone in Hs.
  induction (futures s) as [|f fs IH]; simpl in *; [done|].
  apply andb_prop in Hs as [Hf Hs]. rewrite IH by done. by destruct f.
Qed.

Lemma settled_aborted (s : pool) (e : exn) :
  forallb (settled (raised s)) (futures s) = true ->
  raised s = Some e -> aborted s e.
Proof.
  intros Hs Hsome. split; [done|]. rewrite Hsome in Hs.
  induction (futures s) as [|f fs IH]; simpl in *; [done|].
  apply andb_prop in Hs as [Hf Hs]. rewrite IH by done. by destruct f.
Qed.

(** For every server and every pool of at least one worker, [main] has a
    run. *)
Lemma main_run_exists (BeautifulSoup : string -> node) (srv : server)
    (workers : nat) (extract : string -> Z -> Z -> prog Z) :
  (1 <= workers)%nat ->
  exists r tr, main_run BeautifulSoup srv workers extract r tr.
Proof.
  intros Hw.
  destruct (run srv (main_collect BeautifulSoup) []) as [[urls|e] tr] eqn:Hc.
  - destruct (sequential_schedule srv workers Hw (detail_calls extract urls)
                [] 0 tr None eq_refl) as (s & Hs & Hfin).
    destruct (raised s) as [e|] eqn:He.
    + exists (Uncaught e), (history s).
      eapply main_pool_raises; [exact Hc|exact Hs|]. apply settled_aborted; [by rewrite He|done].
    + eexists _, _.
      eapply main_returns; [exact Hc|exact Hs|]. apply settled_completed; [by rewrite He|done].
  - exists (Uncaught e), tr. by apply main_collect_raises.
Qed.

(** * The claims *)

(** ** C1: the warm-up request *)

(** C1.  The warm-up is not best-effort for transport failures: when the
    host cannot be reached, the exception of the warm-up request leaves
    [main], whatever the pool size and the detail extractor.  Every run ends
    with the exception uncaught after the first log line and the request,
    and no total is printed.  A response of any status, on the other hand,
    lets the warm-up return. *)
Theorem warm_up_failure_aborts_main (BeautifulSoup : string -> node)
    (workers : nat) (extract : string -> Z -> Z -> prog Z)
    (r : result unit) (tr : trace) :
  (main_run BeautifulSoup unreachable workers extract r tr <->
   r = Uncaught connection_refused
   /\ tr = [EvPrint "[STEP] Initializing session with homepage fetch";
            EvGet BASE_URL 10 (Failure connection_refused)])
  /\ (forall (srv : server) (tr0 : trace) (status_code : Z) (text : string),
        srv (tr0 ++ [EvPrint "[STEP] Initializing session with homepage fetch"])
            BASE_URL = Response status_code text ->
        fst (run srv warm_up tr0) = Returned tt).
Proof.
  assert (run unreachable (main_collect BeautifulSoup) []
          = (Uncaught connection_refused,
             [EvPrint "[STEP] Initializing session with homepage fetch";
              EvGet BASE_URL 10 (Failure connection_refused)])) as Hrun
    by reflexivity.
  split; [split|].
  - intros H. inversion H as [e tr' Hc|urls tr' s e Hc|urls tr' s Hc]; subst;
      rewrite Hrun in Hc; by simplify_eq.
  - intros [-> ->]. by apply main_collect_raises.
  - intros srv tr0 status_code text Hsrv. unfold warm_up.
    cbn [bind print session_get run]. rewrite Hsrv. cbn [bind run fst].
    destruct (status_code =? 200); done.
Qed.

(** ** C2: the reported total *)

(** The costs of calls that each return the cost of their URL. *)
Lemma pure_calls_costs (cost : string -> Z) (all_unit_urls : list string)
    (costs : list Z) :
  Forall2 (fun call v => ends any_outcome call (Returned v))
          (detail_calls (fun url _ _ => Ret (cost url)) all_unit_urls) costs ->
  costs = map cost all_unit_urls.
Proof.
  intros Hall.
  pose proof (Forall2_length _ _ _ Hall) as Hlen.
  unfold detail_calls in Hlen. rewrite length_imap in Hlen.
  apply (list_eq_same_length _ _ (length all_unit_urls));
    [by rewrite length_map|done|].
  intros i v v' Hi Hv Hv'.
  destruct (Forall2_lookup_r _ _ _ _ _ Hall Hv) as (call & Hcall & Hends).
  unfold detail_calls in Hcall. rewrite list_lookup_imap in Hcall.
  rewrite list_lookup_fmap in Hv'.
  destruct (all_unit_urls !! i) as [url|]; [|done].
  simpl in Hcall, Hv'. simplify_eq. by inversion Hends.
Qed.

Lemma sumZ_const (V : Z) (l : list string) :
  sumZ (map (fun _ => V) l) = Z.of_nat (length l) * V.
Proof. induction l as [|x l IH]; [done|]. cbn [map sumZ foldr length] in *. fold (sumZ (map (fun _ => V) l)). lia. Qed.

Lemma printed_app (tr1 tr2 : trace) :
  printed (tr1 ++ tr2) = printed tr1 ++ printed tr2.
Proof.
  induction tr1 as [|[url timeout o|d|line] tr1 IH]; simpl; by rewrite ?IH.
Qed.

(** A run of [main] whose detail calls return the cost of their URL ends
    normally and reports the sum over the collected list. *)
Lemma main_run_pure (BeautifulSoup : string -> node) (srv : server)
    (workers : nat) (cost : string -> Z) (all_unit_urls : list string)
    (tr0 : trace) (r : result unit) (tr : trace) :
  run srv (main_collect BeautifulSoup) [] = (Returned all_unit_urls, tr0) ->
  main_run BeautifulSoup srv workers (fun url _ _ => Ret (cost url)) r tr ->
  r = Returned tt
  /\ last (printed tr) = Some (result_line (sumZ (map cost all_unit_urls))).
Proof.
  intros Hc H.
  inversion H as [e tr' Hc'|urls tr' s e Hc' Hsteps Hab|urls tr' s Hc' Hsteps Hdone];
    subst; rewrite Hc in Hc'; simplify_eq.
  - exfalso.
    pose proof (pool_steps_inv any_outcome _ _ _ _ _ (fun _ _ => I)
                  (pool_init_inv _ _ tr') Hsteps)
      as [Hfs _ _ Hre].
    destruct Hab as [He _]. destruct (Hre e He) as [i Hi].
    destruct (Forall2_lookup_r _ _ _ _ _ Hfs Hi) as (call & Hcall & Hends).
    unfold detail_calls in Hcall. rewrite list_lookup_imap in Hcall.
    destruct (urls !! i) as [url|]; [|done].
    simpl in Hcall, Hends. simplify_eq. inversion Hends.
  - split; [done|].
    pose proof (pool_steps_inv any_outcome _ _ _ _ _ (fun _ _ => I)
                  (pool_init_inv _ _ tr') Hsteps) as Hinv.
    destruct (completed_total _ _ _ Hinv Hdone) as (costs & Hcosts & _ & ->).
    rewrite (pure_calls_costs _ _ _ Hcosts).
    rewrite printed_app. simpl. by rewrite last_snoc.
Qed.

(** C2.  Once the unit URLs are collected, with detail calls mocked to
    return a fixed [V] every run of [main], for every pool size, ends
    normally and reports [N * V] for the [N] collected references (and such
    a run exists as soon as the pool has a worker); with calls that return
    a cost per URL the report is the sum over the collected list, one term
    per occurrence; and for any detail extractor, when the pool is left
    normally each future holds the cost its call returned and [total_cost]
    is the sum of these, one per collected reference. *)
Theorem orchestrator_total_is_sum (BeautifulSoup : string -> node)
    (srv : server) (all_unit_urls : list string) (tr0 : trace) :
  run srv (main_collect BeautifulSoup) [] = (Returned all_unit_urls, tr0) ->
  (forall (workers : nat) (V : Z) (r : result unit) (tr : trace),
      main_run BeautifulSoup srv workers (fun _ _ _ => Ret V) r tr ->
      r = Returned tt
      /\ last (printed tr)
         = Some (result_line (Z.of_nat (length all_unit_urls) * V)))
  /\ (forall (workers : nat) (V : Z),
        (1 <= workers)%nat ->
        exists tr,
          main_run BeautifulSoup srv workers (fun _ _ _ => Ret V)
                   (Returned tt) tr)
  /\ (forall (workers : nat) (cost : string -> Z) (r : result unit)
             (tr : trace),
        main_run BeautifulSoup srv workers (fun url _ _ => Ret (cost url)) r tr ->
        r = Returned tt
        /\ last (printed tr)
           = Some (result_line (sumZ (map cost all_unit_urls))))
  /\ (forall (workers : nat) (extract : string -> Z -> Z -> prog Z) (s : pool),
        pool_steps srv workers
          (Pool (submit_all extract all_unit_urls) 0 tr0 None) s ->
        completed s ->
        exists costs : list Z,
          length costs = length all_unit_urls
          /\ Forall2 (fun call v => ends any_outcome call (Returned v))
                     (detail_calls extract all_unit_urls) costs
          /\ futures s = map (fun v => Yielded (Returned v)) costs
          /\ total_cost s = sumZ costs).
Proof.
  intros Hc. repeat split.
  - by eapply (main_run_pure _ _ _ (fun _ => V)).
  - rewrite <- sumZ_const. by eapply (main_run_pure _ _ _ (fun _ => V)).
  - intros workers V Hw.
    destruct (main_run_exists BeautifulSoup srv workers (fun _ _ _ => Ret V) Hw)
      as (r & tr & Hrun).
    destruct (main_run_pure _ _ _ (fun _ => V) _ _ _ _ Hc Hrun) as [-> _].
    by exists tr.
  - by eapply main_run_pure.
  - by eapply main_run_pure.
  - intros workers extract s Hsteps Hdone.
    pose proof (pool_steps_inv any_outcome _ _ _ _ _ (fun _ _ => I)
                  (pool_init_inv _ _ tr0) Hsteps) as Hinv.
    destruct (completed_total _ _ _ Hinv Hdone) as (costs & Hcosts & Hfs & Htot).
    exists costs. repeat split; try done.
    apply Forall2_length in Hcosts. unfold detail_calls in Hcosts.
    by rewrite length_imap in Hcosts.
Qed.

Lemma orchestrator_total_is_sum_witness :
  fst (run listing_server (main_collect (fun _ => page_listing)) [])
  = Returned collected_example
  /\ (exists tr,
        main_run (fun _ => page_listing) listing_server CONCURRENT_WORKERS
                 (fun _ _ _ => Ret 7) (Returned tt) tr
        /\ last (printed tr) = Some (result_line 70)).
Proof.
  split; [vm_compute; reflexivity|].
  pose proof (orchestrator_total_is_sum (fun _ => page_listing) listing_server
                collected_example _ ltac:(vm_compute; reflexivity))
    as (Htotal & Hexists & _).
  destruct (Hexists CONCURRENT_WORKERS 7) as [tr Hrun];
    [unfold CONCURRENT_WORKERS; lia|].
  exists tr. split; [exact Hrun|].
  exact (proj2 (Htotal CONCURRENT_WORKERS 7 (Returned tt) tr Hrun)).
Defined.

(** ** C3: the number of attempts *)

(** C3.  Whatever the server: if every request the fetch makes fails in a
    retryable way (status 403, 405 or 429, or an exception of the
    [requests] hierarchy), it makes exactly [MAX_RETRIES] requests and
    returns [None]; and if its [n]-th request gets status 200, it makes
    exactly [n] requests, [n <= MAX_RETRIES], and returns the text of that
    response.  Against a scripted sequence of outcomes, this is: when the
    first [MAX_RETRIES] outcomes are retryable failures the fetch makes
    [MAX_RETRIES] requests and returns [None]; when the first [n - 1] are
    and the [n]-th, [n <= MAX_RETRIES], has status 200, the fetch makes [n]
    requests and returns that text. *)
Theorem fetch_attempts (srv : server) (rs : nat -> outcome) (url : string)
    (tr : trace) :
  (Forall (fun o => retryable o = true)
          (outcomes (snd (run srv (fetch_with_retries url) tr))) ->
   fst (run srv (fetch_with_retries url) tr) = Returned None
   /\ count_gets (snd (run srv (fetch_with_retries url) tr)) = MAX_RETRIES)
  /\ (forall (n : nat) (text : string),
        (1 <= n)%nat ->
        outcomes (snd (run srv (fetch_with_retries url) tr)) !! (n - 1)%nat
        = Some (Response 200 text) ->
        fst (run srv (fetch_with_retries url) tr) = Returned (Some text)
        /\ count_gets (snd (run srv (fetch_with_retries url) tr)) = n
        /\ (n <= MAX_RETRIES)%nat)
  /\ ((forall k, (k < MAX_RETRIES)%nat ->
                 retryable (rs (count_gets tr + k)%nat) = true) ->
      exists evs,
        run (scripted rs) (fetch_with_retries url) tr = (Returned None, evs)
        /\ count_gets evs = MAX_RETRIES)
  /\ (forall (n : nat) (text : string),
        (1 <= n <= MAX_RETRIES)%nat ->
        (forall k, (k < n - 1)%nat ->
                   retryable (rs (count_gets tr + k)%nat) = true) ->
        rs (count_gets tr + (n - 1))%nat = Response 200 text ->
        exists evs,
          run (scripted rs) (fetch_with_retries url) tr
          = (Returned (Some text), evs)
          /\ count_gets evs = n).
Proof.
  pose proof (fetch_loop_outcomes srv url (seq 0 MAX_RETRIES) 1 tr) as Hsrv.
  unfold fetch_with_retries.
  destruct (run srv (fetch_loop url (seq 0 MAX_RETRIES) 1) tr) as [r evs].
  destruct Hsrv as (Hall & Hok & Hle). rewrite length_seq in Hall, Hle.
  cbn [fst snd]. split; [exact Hall|split; [|split]].
  - intros n text Hn Hnth.
    destruct (Hok (n - 1)%nat text Hnth) as [-> Hc].
    split; [done|]. split; lia.
  - intros Hrs.
    destruct (fetch_loop_exhausted rs url (seq 0 MAX_RETRIES) 1 tr)
      as (evs' & Hrun & Hn).
    { intros k Hk. rewrite length_seq in Hk. by apply Hrs. }
    exists evs'. by rewrite length_seq in Hn.
  - intros n text Hn Hrs Hok'.
    destruct (fetch_loop_success rs url text (n - 1) (seq 0 MAX_RETRIES) 1 tr)
      as (evs' & Hrun & Hc); [rewrite length_seq; lia|done..|].
    exists evs'. split; [done|lia].
Qed.

Lemma fetch_attempts_witness :
  (exists evs,
      run (scripted script_all_limited) (fetch_with_retries BASE_URL) []
      = (Returned None, evs)
      /\ count_gets evs = 5%nat)
  /\ (exists evs,
        run (scripted script_third_ok) (fetch_with_retries BASE_URL) []
        = (Returned (Some "<html>unit</html>"), evs)
        /\ count_gets evs = 3%nat).
Proof.
  split.
  - apply (proj1 (proj2 (proj2
             (fetch_attempts unreachable script_all_limited BASE_URL [])))).
    intros k _. reflexivity.
  - apply (proj2 (proj2 (proj2
             (fetch_attempts unreachable script_third_ok BASE_URL []))) 3%nat).
    + unfold MAX_RETRIES. lia.
    + intros [|[|k]] Hk; [reflexivity|reflexivity|simpl in Hk; lia].
    + reflexivity.
Defined.

(** ** C4: a status that is not retried *)

(** C4.  When the first response has a status other than 200, 403, 405 and
    429, the fetch returns [None] after that single request: it logs the
    status, makes no other request and does not sleep. *)
Theorem fetch_unexpected_status (srv : server) (url : string) (tr : trace)
    (status_code : Z) (text : string) :
  srv tr url = Response status_code text ->
  status_code <> 200 -> status_code <> 403 ->
  status_code <> 405 -> status_code <> 429 ->
  let evs := snd (run srv (fetch_with_retries url) tr) in
  run srv (fetch_with_retries url) tr
  = (Returned None,
     [EvGet url 15 (Response status_code text);
      EvPrint ("[ERROR] Unexpected status " +:+ str_of_Z status_code
               +:+ " on " +:+ url)])
  /\ count_gets evs = 1%nat
  /\ sleeps evs = [].
Proof.
  intros Hsrv H200 H403 H405 H429.
  assert (run srv (fetch_with_retries url) tr
          = (Returned None,
             [EvGet url 15 (Response status_code text);
              EvPrint ("[ERROR] Unexpected status " +:+ str_of_Z status_code
                       +:+ " on " +:+ url)])) as Hrun.
  { unfold fetch_with_retries. cbn [seq MAX_RETRIES].
    rewrite run_fetch_loop_cons. cbv zeta. rewrite Hsrv.
    cbn [attempt_result attempt_events]. unfold retry_status.
    destruct (Z.eqb_spec status_code 200); [done|].
    destruct (Z.eqb_spec status_code 403); [done|].
    destruct (Z.eqb_spec status_code 405); [done|].
    destruct (Z.eqb_spec status_code 429); done. }
  cbv zeta. rewrite Hrun. done.
Qed.

Lemma fetch_unexpected_status_witness :
  run (fun _ _ => Response 500 "Internal Server Error")
      (fetch_with_retries "u") []
  = (Returned None,
     [EvGet "u" 15 (Response 500 "Internal Server Error");
      EvPrint "[ERROR] Unexpected status 500 on u"]).
Proof.
  apply (fetch_unexpected_status
           (fun _ _ => Response 500 "Internal Server Error") "u" [] 500
           "Internal Server Error"); [reflexivity|lia..].
Defined.

(** ** C5: the backoff delays *)

(** C5.  Whatever the server answers, the fetch sleeps once per retryable
    failure, and its delays start at 1 and double at each retry: they are a
    prefix of 1, 2, 4, 8, 16, below the ceiling of 30.  For a loop of any
    number of attempts the delays start at 1, each is the double of the one
    before capped at 30, and none exceeds 30. *)
Theorem backoff_doubles_capped (srv : server) (url : string) (tr : trace) :
  (exists delays : list Z,
      let evs := snd (run srv (fetch_with_retries url) tr) in
      sleeps evs = map inject_Z delays
      /\ length delays = count_retryable evs
      /\ delays = take (length delays) [1; 2; 4; 8; 16]
      /\ (forall i d d', delays !! i = Some d -> delays !! S i = Some d' ->
                         d' = d * 2)
      /\ Forall (fun d => d <= 30) delays)
  /\ (forall attempts : list nat,
        exists delays : list Z,
          let evs := snd (run srv (fetch_loop url attempts 1) tr) in
          sleeps evs = map inject_Z delays
          /\ length delays = count_retryable evs
          /\ (forall d, head delays = Some d -> d = 1)
          /\ (forall i d d', delays !! i = Some d -> delays !! S i = Some d' ->
                             d' = Z.min (d * 2) 30)
          /\ Forall (fun d => d <= 30) delays).
Proof.
  assert (forall attempts : list nat,
             exists delays : list Z,
               let evs := snd (run srv (fetch_loop url attempts 1) tr) in
               (sleeps evs = map inject_Z delays
                /\ length delays = count_retryable evs
                /\ (forall d, head delays = Some d -> d = 1)
                /\ (forall i d d', delays !! i = Some d ->
                                   delays !! S i = Some d' ->
                                   d' = Z.min (d * 2) 30)
                /\ Forall (fun d => d <= 30) delays)
               /\ delays = backoffs (count_retryable evs) 1
               /\ (count_retryable evs <= length attempts)%nat) as Hgen.
  { intros attempts.
    destruct (fetch_loop_sleeps srv url attempts 1 tr) as [Hs Hc].
    eexists. cbv zeta. split; [|split; [reflexivity|exact Hc]].
    split; [exact Hs|]. split; [apply backoffs_length|]. split; [|split].
    - destruct (count_retryable _); simpl; [done|]. by intros d [= <-].
    - intros i d d'. apply backoffs_step.
    - eapply Forall_impl; [apply backoffs_bounds; lia|]. simpl. lia. }
  split.
  - destruct (Hgen (seq 0 MAX_RETRIES)) as (delays & Hprops & Hd & Hle).
    cbv zeta in *. rewrite length_seq in Hle.
    destruct Hprops as (Hs & Hlen & _ & Hstep & Hmax).
    exists delays. split; [exact Hs|]. split; [exact Hlen|].
    assert (delays = take (length delays) [1; 2; 4; 8; 16]) as Htake.
    { rewrite Hlen. rewrite Hd at 1. by apply backoffs_max_retries. }
    split; [exact Htake|]. split; [|exact Hmax].
    intros i d d' Hi Hi'. rewrite (Hstep i d d' Hi Hi').
    rewrite Htake in Hi, Hi'.
    apply lookup_take_Some in Hi as [Hi _], Hi' as [Hi' _].
    do 4 (destruct i as [|i]; [simpl in *; simplify_eq; done|]).
    destruct i; done.
  - intros attempts. destruct (Hgen attempts) as (delays & Hprops & _).
    by exists delays.
Qed.

(** ** C8: no exception leaves the fetch *)

(** C8, as amended.  For every URL and every server whose requests fail
    only with exceptions of the [requests] hierarchy, at every attempt if
    need be, the fetch returns: either the text of a page or [None]. *)
Theorem fetch_never_raises (srv : server) (url : string) (tr : trace) :
  (forall tr' e, srv tr' url = Failure e -> is_RequestException e = true) ->
  exists html evs,
    run srv (fetch_with_retries url) tr = (Returned html, evs).
Proof. intros Hsrv. by apply fetch_loop_returns. Qed.

Lemma fetch_never_raises_witness :
  exists html evs,
    run unreachable (fetch_with_retries BASE_URL) [] = (Returned html, evs).
Proof.
  apply (fetch_never_raises unreachable BASE_URL []).
  intros tr' e [= <-]. reflexivity.
Defined.

(** C8, as stated, fails: an exception from outside the [requests]
    hierarchy raised by the request is not caught by
    [except requests.RequestException] and leaves the fetch. *)
Lemma fetch_lets_other_exception_escape :
  run interrupting (fetch_with_retries BASE_URL) []
  = (Uncaught interrupted, [EvGet BASE_URL 15 (Failure interrupted)])
  /\ ~ (forall (srv : server) (url : string) (tr : trace),
          exists html evs,
            run srv (fetch_with_retries url) tr = (Returned html, evs)).
Proof.
  assert (run interrupting (fetch_with_retries BASE_URL) []
          = (Uncaught interrupted, [EvGet BASE_URL 15 (Failure interrupted)]))
    as Hrun by reflexivity.
  split; [exact Hrun|].
  intros Hall. destruct (Hall interrupting BASE_URL []) as (html & evs & Hret).
  rewrite Hrun in Hret. discriminate Hret.
Qed.

(** ** C6: the cost of a unit page *)

(** C6.  On a page that was fetched, the detail extractor returns the sum
    of the Talisman and Aces fields; each field is that of the first
    container with its label and is 0 when there is none or when the
    container has no value element; the value is read from the digits of
    the text, whatever else surrounds them, and is 0 when the text has no
    digit.  On the three example pages it returns 1234, 1250 and 0. *)
Theorem extract_total_cost_sums_fields (BeautifulSoup : string -> node)
    (srv : server) :
  (forall (unit_url : string) (index total_units : Z) (tr : trace)
          (html : string),
      fst (run srv (fetch_with_retries (BASE_URL +:+ unit_url))
               (tr ++ [EvSleep REQUEST_DELAY])) = Returned (Some html) ->
      falsy html = false ->
      fst (run srv (extract_total_cost BeautifulSoup unit_url index total_units) tr)
      = Returned (talisman_cost_of (BeautifulSoup html)
                  + aces_cost_of (BeautifulSoup html)))
  /\ (forall soup : node,
        talisman_cost_of soup =
        match List.find is_talisman_line
                (find_all soup "div" (Some "game-unit_chars-line")) with
        | Some div => field_cost div
        | None => 0
        end
        /\ aces_cost_of soup =
           match List.find is_aces_line
                   (find_all soup "div" (Some "game-unit_chars-subline")) with
           | Some div => field_cost div
           | None => 0
           end)
  /\ (forall div : node,
        find div "span" (Some "game-unit_chars-value") = None ->
        field_cost div = 0)
  /\ (forall (div val_span : node),
        find div "span" (Some "game-unit_chars-value") = Some val_span ->
        field_cost div = cost_of_text (get_text_strip val_span))
  /\ (forall text digits : string,
        str_filter isdigit text = digits ->
        (falsy digits = true -> cost_of_text text = 0)
        /\ (falsy digits = false ->
            str_forallb isdecimal digits = true ->
            (String.length digits <= int_max_str_digits)%nat ->
            cost_of_text text = decimal_value 0 digits))
  /\ fst (run unit_server
              (extract_total_cost (fun _ => page_talisman_only) "/unit/a" 1 3) [])
     = Returned 1234
  /\ fst (run unit_server
              (extract_total_cost (fun _ => page_both) "/unit/b" 2 3) [])
     = Returned 1250
  /\ fst (run unit_server
              (extract_total_cost (fun _ => page_neither) "/unit/c" 3 3) [])
     = Returned 0.
Proof.
  split; [|split; [|split; [|split; [|split; [|split; [|split]]]]]].
  - intros unit_url index total_units tr html Hfetch Hhtml.
    rewrite run_extract_total_cost. cbv zeta.
    destruct (run srv (fetch_with_retries _) _) as [r evs].
    simpl in Hfetch. subst r. by rewrite Hhtml.
  - intros soup. split.
    + unfold talisman_cost_of. apply talisman_loop_find.
    + unfold aces_cost_of. apply aces_loop_find.
  - intros div Hnone. unfold field_cost. by rewrite Hnone.
  - intros div val_span Hsome. unfold field_cost. by rewrite Hsome.
  - intros text digits Hdigits. rewrite cost_of_text_digits, Hdigits.
    unfold int_of_digits. split.
    + by intros ->.
    + intros -> -> Hlen. simpl.
      apply Nat.ltb_ge in Hlen. by rewrite Hlen.
  - reflexivity.
  - reflexivity.
  - reflexivity.
Qed.

Lemma extract_total_cost_sums_fields_witness :
  fst (run unit_server
           (extract_total_cost (fun _ => page_both) "/unit/b" 2 3) [])
  = Returned (talisman_cost_of page_both + aces_cost_of page_both)
  /\ cost_of_text "1,234 GE" = 1234.
Proof.
  split.
  - apply (proj1 (extract_total_cost_sums_fields (fun _ => page_both)
                    unit_server) "/unit/b" 2 3 [] "<html>unit</html>");
      reflexivity.
  - apply (proj1 (proj2 (proj2 (proj2 (proj2
             (extract_total_cost_sums_fields (fun _ => page_both) unit_server)))))
           "1,234 GE" "1234" eq_refl);
      [reflexivity|reflexivity|unfold int_max_str_digits; simpl; lia].
Defined.

(** ** C7: an unavailable page *)

(** C7.  When the fetch returns [None], the listing extractor returns the
    empty list and the detail extractor returns 0, each after logging the
    failure; neither raises, and the loop over the categories goes on with
    the next one. *)
Theorem unavailable_is_absorbed (BeautifulSoup : string -> node)
    (srv : server) :
  (forall (tech_tree_path : string) (tr : trace),
      fst (run srv (fetch_with_retries (listing_url tech_tree_path))
               (tr ++ [listing_step tech_tree_path])) = Returned None ->
      exists evs,
        run srv (get_unit_urls BeautifulSoup tech_tree_path) tr
        = (Returned [], evs)
        /\ last evs = Some (listing_failed tech_tree_path))
  /\ (forall (unit_url : string) (index total_units : Z) (tr : trace),
        fst (run srv (fetch_with_retries (BASE_URL +:+ unit_url))
                 (tr ++ [EvSleep REQUEST_DELAY])) = Returned None ->
        exists evs,
          run srv (extract_total_cost BeautifulSoup unit_url index total_units) tr
          = (Returned 0, evs)
          /\ last evs = Some (unit_failed unit_url))
  /\ (forall (tree : string) (rest all_unit_urls : list string) (tr : trace),
        fst (run srv (fetch_with_retries (listing_url tree))
                 (tr ++ [listing_step tree])) = Returned None ->
        exists evs,
          run srv (get_unit_urls BeautifulSoup tree) tr = (Returned [], evs)
          /\ run srv (collect_unit_urls BeautifulSoup (tree :: rest)
                        all_unit_urls) tr
             = let '(r, evs') :=
                 run srv (collect_unit_urls BeautifulSoup rest all_unit_urls)
                     (tr ++ evs) in
               (r, evs ++ evs')).
Proof.
  assert (forall (tech_tree_path : string) (tr : trace),
      fst (run srv (fetch_with_retries (listing_url tech_tree_path))
               (tr ++ [listing_step tech_tree_path])) = Returned None ->
      exists evs,
        run srv (get_unit_urls BeautifulSoup tech_tree_path) tr
        = (Returned [], evs)
        /\ last evs = Some (listing_failed tech_tree_path)) as Hlisting.
  { intros tech_tree_path tr Hfetch. rewrite run_get_unit_urls. cbv zeta.
    destruct (run srv (fetch_with_retries _) _) as [r evs].
    simpl in Hfetch. subst r. eexists. split; [done|].
    by rewrite app_comm_cons, last_snoc. }
  split; [exact Hlisting|split].
  - intros unit_url index total_units tr Hfetch.
    rewrite run_extract_total_cost. cbv zeta.
    destruct (run srv (fetch_with_retries _) _) as [r evs].
    simpl in Hfetch. subst r. eexists. split; [done|].
    by rewrite app_comm_cons, last_snoc.
  - intros tree rest all_unit_urls tr Hfetch.
    destruct (Hlisting tree tr Hfetch) as (evs & Hrun & _).
    exists evs. split; [done|].
    cbn [collect_unit_urls]. rewrite run_bind, Hrun. by rewrite app_nil_r.
Qed.

Lemma unavailable_is_absorbed_witness :
  (exists evs,
      run unreachable (get_unit_urls (fun _ => page_listing) "aviation") []
      = (Returned [], evs)
      /\ last evs = Some (listing_failed "aviation"))
  /\ (exists evs,
        run unreachable
            (extract_total_cost (fun _ => page_both) "/unit/a" 1 1) []
        = (Returned 0, evs)
        /\ last evs = Some (unit_failed "/unit/a")).
Proof.
  split.
  - apply (proj1 (unavailable_is_absorbed (fun _ => page_listing) unreachable)
             "aviation" []).
    reflexivity.
  - apply (proj1 (proj2 (unavailable_is_absorbed (fun _ => page_both)
                           unreachable)) "/unit/a" 1 1 []).
    reflexivity.
Defined.

(** ** C10: empty content *)

(** C10.  A response of status 200 with an empty body makes the fetch
    return the empty string; and when the fetch returns the empty string,
    the listing extractor returns the empty list and the detail extractor
    returns 0, with the very log line and result they have when the fetch
    returns [None]. *)
Theorem empty_content_like_unavailable (BeautifulSoup : string -> node)
    (srv : server) :
  (forall (url : string) (tr : trace),
      srv tr url = Response 200 EmptyString ->
      run srv (fetch_with_retries url) tr
      = (Returned (Some EmptyString), [EvGet url 15 (Response 200 EmptyString)]))
  /\ (forall (tech_tree_path : string) (tr : trace) (html : option string),
        let fetched :=
          run srv (fetch_with_retries (listing_url tech_tree_path))
              (tr ++ [listing_step tech_tree_path]) in
        fst fetched = Returned html ->
        html = None \/ html = Some EmptyString ->
        run srv (get_unit_urls BeautifulSoup tech_tree_path) tr
        = (Returned [],
           listing_step tech_tree_path :: snd fetched
             ++ [listing_failed tech_tree_path]))
  /\ (forall (unit_url : string) (index total_units : Z) (tr : trace)
             (html : option string),
        let fetched :=
          run srv (fetch_with_retries (BASE_URL +:+ unit_url))
              (tr ++ [EvSleep REQUEST_DELAY]) in
        fst fetched = Returned html ->
        html = None \/ html = Some EmptyString ->
        run srv (extract_total_cost BeautifulSoup unit_url index total_units) tr
        = (Returned 0,
           EvSleep REQUEST_DELAY :: snd fetched ++ [unit_failed unit_url])).
Proof.
  split; [|split].
  - intros url tr Hsrv. unfold fetch_with_retries. cbn [seq MAX_RETRIES].
    rewrite run_fetch_loop_cons. cbv zeta. by rewrite Hsrv.
  - intros tech_tree_path tr html fetched Hfetch Hhtml.
    rewrite run_get_unit_urls. cbv zeta. fold fetched.
    destruct fetched as [r evs]. simpl in Hfetch. subst r.
    by destruct Hhtml as [-> | ->].
  - intros unit_url index total_units tr html fetched Hfetch Hhtml.
    rewrite run_extract_total_cost. cbv zeta. fold fetched.
    destruct fetched as [r evs]. simpl in Hfetch. subst r.
    by destruct Hhtml as [-> | ->].
Qed.

Lemma empty_content_like_unavailable_witness :
  run empty_body (get_unit_urls (fun _ => page_listing) "ground") []
  = (Returned [],
     [listing_step "ground";
      EvGet (listing_url "ground") 15 (Response 200 EmptyString);
      listing_failed "ground"])
  /\ run empty_body (extract_total_cost (fun _ => page_both) "/unit/a" 1 1) []
     = (Returned 0,
        [EvSleep REQUEST_DELAY;
         EvGet (BASE_URL +:+ "/unit/a") 15 (Response 200 EmptyString);
         unit_failed "/unit/a"]).
Proof.
  pose proof (empty_content_like_unavailable (fun _ => page_listing) empty_body)
    as (_ & Hlisting & _).
  pose proof (empty_content_like_unavailable (fun _ => page_both) empty_body)
    as (_ & _ & Hunit).
  split.
  - apply (Hlisting "ground" [] (Some EmptyString)); [reflexivity|by right].
  - apply (Hunit "/unit/a" 1 1 [] (Some EmptyString)); [reflexivity|by right].
Defined.

Lemma backoff_doubles_capped_witness :
  exists delays : list Z,
    sleeps (snd (run unreachable (fetch_with_retries BASE_URL) []))
    = map inject_Z delays
    /\ delays = [1; 2; 4; 8; 16].
Proof.
  destruct (proj1 (backoff_doubles_capped unreachable BASE_URL []))
    as (delays & Hs & Hlen & Htake & _).
  exists delays. split; [exact Hs|].
  rewrite Htake, Hlen. reflexivity.
Defined.

(** * Further properties *)

(** ** The fetch, for any server *)

Lemma requests_app (tr1 tr2 : trace) :
  requests (tr1 ++ tr2) = requests tr1 ++ requests tr2.
Proof.
  induction tr1 as [|[url timeout o|d|line] tr1 IH]; simpl; by rewrite ?IH.
Qed.

Lemma requests_length (tr : trace) : length (requests tr) = count_gets tr.
Proof.
  unfold count_gets.
  induction tr as [|[url timeout o|d|line] tr IH]; simpl; by rewrite ?IH.
Qed.

Lemma requests_attempt_events (url : string) (attempt : nat) (backoff : Z)
    (o : outcome) :
  requests (attempt_events url attempt backoff o) = [].
Proof.
  destruct o as [status_code text|e]; simpl.
  - destruct (status_code =? 200); [done|].
    by destruct (retry_status status_code).
  - by destruct (is_RequestException e).
Qed.

(** Every request of the loop is for the same URL, with a timeout of 15
    seconds, and a non-empty loop makes at least one. *)
Lemma fetch_loop_requests (srv : server) (url : string) :
  forall (attempts : list nat) (backoff : Z) (tr : trace),
    let evs := snd (run srv (fetch_loop url attempts backoff) tr) in
    requests evs = replicate (count_gets evs) (url, 15)
    /\ (attempts <> [] -> (1 <= count_gets evs)%nat).
Proof.
  induction attempts as [|attempt rest IH]; intros backoff tr; cbv zeta.
  - done.
  - rewrite run_fetch_loop_cons. cbv zeta.
    set (o := srv tr url). set (evs0 := EvGet url 15 o :: _).
    assert (requests evs0 = [(url, 15)]) as Hr.
    { unfold evs0. simpl. by rewrite requests_attempt_events. }
    assert (count_gets evs0 = 1%nat) as Hc by apply count_gets_attempt.
    destruct (attempt_result backoff o) as [[html| |backoff']|e];
      cbn [snd]; try (rewrite Hr, Hc; split; [done|lia]).
    specialize (IH backoff' (tr ++ evs0)). cbv zeta in IH.
    destruct (run srv (fetch_loop url rest backoff') (tr ++ evs0)) as [r evs].
    cbn [snd] in *. destruct IH as [IH _].
    rewrite requests_app, count_gets_app, Hr, Hc, IH. simpl. split; [done|lia].
Qed.

Lemma sumZ_take_backoffs (n : nat) :
  sumZ (take n [1; 2; 4; 8; 16]) <= 31.
Proof. do 6 (destruct n as [|n]; [vm_compute; discriminate|]). vm_compute. discriminate. Qed.

(** The requests and delays of a whole fetch. *)
Lemma fetch_shape (srv : server) (url : string) (tr : trace) :
  let evs := snd (run srv (fetch_with_retries url) tr) in
  requests evs = replicate (count_gets evs) (url, 15)
  /\ (1 <= count_gets evs <= MAX_RETRIES)%nat
  /\ exists delays : list Z,
       sleeps evs = map inject_Z delays /\ sumZ delays <= 31.
Proof.
  cbv zeta. unfold fetch_with_retries.
  pose proof (fetch_loop_requests srv url (seq 0 MAX_RETRIES) 1 tr) as [Hreq Hone].
  pose proof (fetch_loop_outcomes srv url (seq 0 MAX_RETRIES) 1 tr) as Hout.
  pose proof (fetch_loop_sleeps srv url (seq 0 MAX_RETRIES) 1 tr) as [Hs Hc].
  destruct (run srv (fetch_loop url (seq 0 MAX_RETRIES) 1) tr) as [r evs].
  cbn [snd] in *. destruct Hout as (_ & _ & Hle).
  rewrite length_seq in Hle, Hc.
  split; [exact Hreq|]. split; [split; [by apply Hone|exact Hle]|].
  exists (backoffs (count_retryable evs) 1). split; [exact Hs|].
  rewrite backoffs_max_retries by done. apply sumZ_take_backoffs.
Qed.

(** X1.  Whatever the server answers, the fetch makes between one and
    [MAX_RETRIES] requests, all of them for the URL it was given and with a
    timeout of 15 seconds, and the backoff delays it sleeps add up to 31
    seconds at most. *)
Theorem fetch_request_bounds (srv : server) (url : string) (tr : trace) :
  let evs := snd (run srv (fetch_with_retries url) tr) in
  requests evs = replicate (count_gets evs) (url, 15)
  /\ (1 <= count_gets evs <= MAX_RETRIES)%nat
  /\ exists delays : list Z,
       sleeps evs = map inject_Z delays /\ sumZ delays <= 31.
Proof. apply fetch_shape. Qed.

(** How an attempt ends tells the outcome of its request. *)
Lemma attempt_result_inv (backoff : Z) (o : outcome) :
  match attempt_result backoff o with
  | Returned (Return html) => o = Response 200 html
  | Returned Break =>
      exists status_code text,
        o = Response status_code text /\ status_code <> 200
        /\ retry_status status_code = false
  | Returned (Next _) =>
      retryable o = true /\ forall text, o <> Response 200 text
  | Uncaught e => o = Failure e /\ is_RequestException e = false
  end.
Proof.
  destruct o as [status_code text|e]; simpl.
  - destruct (Z.eqb_spec status_code 200) as [->|Hne]; [done|].
    destruct (retry_status status_code) eqn:Hretry.
    + split; [done|]. by intros text' [= ? ?].
    + eauto.
  - destruct (is_RequestException e) eqn:He; [|done].
    split; [done|]. done.
Qed.

(** The result of the loop, read off the outcome of its last request. *)
Lemma fetch_loop_last (srv : server) (url : string) :
  forall (attempts : list nat) (backoff : Z) (tr : trace),
    let '(r, evs) := run srv (fetch_loop url attempts backoff) tr in
    match last (outcomes evs) with
    | Some (Response status_code text) =>
        r = Returned (if status_code =? 200 then Some text else None)
    | Some (Failure e) =>
        r = if is_RequestException e then Returned None else Uncaught e
    | None => r = Returned None
    end.
Proof.
  induction attempts as [|attempt rest IH]; intros backoff tr.
  - done.
  - rewrite run_fetch_loop_cons. cbv zeta.
    set (o := srv tr url). set (evs0 := EvGet url 15 o :: _).
    assert (outcomes evs0 = [o]) as Ho.
    { unfold evs0. simpl. by rewrite outcomes_attempt_events. }
    pose proof (attempt_result_inv backoff o) as Hinv.
    destruct (attempt_result backoff o) as [[html| |backoff']|e].
    + rewrite Ho, Hinv. done.
    + destruct Hinv as (status_code & text & -> & Hne & _).
      rewrite Ho. simpl. by destruct (Z.eqb_spec status_code 200).
    + specialize (IH backoff' (tr ++ evs0)).
      destruct (run srv (fetch_loop url rest backoff') (tr ++ evs0)) as [r evs].
      rewrite outcomes_app, Ho. simpl.
      destruct (outcomes evs) as [|o' os] eqn:Hos.
      * simpl in *. subst r. destruct Hinv as [Hretry Hne].
        destruct o as [status_code text|e]; simpl in *.
        -- destruct (Z.eqb_spec status_code 200) as [->|]; [done|done].
        -- by rewrite Hretry.
      * change (last (o :: o' :: os)) with (last (o' :: os)). exact IH.
    + destruct Hinv as [-> He]. rewrite Ho. simpl. by rewrite He.
Qed.

(** X2.  The fetch returns the text of a page exactly when its last
    request got status 200, and then it is the text of that response; an
    exception leaves the fetch exactly when its last request raised one from
    outside the [requests] hierarchy; in every other case it returns
    [None]. *)
Theorem fetch_result_by_last_outcome (srv : server) (url : string)
    (tr : trace) :
  let r := fst (run srv (fetch_with_retries url) tr) in
  let last_outcome :=
    last (outcomes (snd (run srv (fetch_with_retries url) tr))) in
  (forall text,
      r = Returned (Some text) <-> last_outcome = Some (Response 200 text))
  /\ (forall e, r = Uncaught e <->
                last_outcome = Some (Failure e) /\ is_RequestException e = false)
  /\ (r = Returned None <->
      (forall text, last_outcome <> Some (Response 200 text))
      /\ (forall e, last_outcome = Some (Failure e) ->
                    is_RequestException e = true)).
Proof.
  cbv zeta. unfold fetch_with_retries.
  pose proof (fetch_loop_last srv url (seq 0 MAX_RETRIES) 1 tr) as Hlast.
  destruct (run srv (fetch_loop url (seq 0 MAX_RETRIES) 1) tr) as [r evs].
  cbn [fst snd].
  destruct (last (outcomes evs)) as [[status_code text|e]|]; subst r.
  - destruct (Z.eqb_spec status_code 200) as [->|Hne].
    + split; [|split].
      * intros text'. split; [by intros [= ->]|by intros [= ->]].
      * intros e. split; [done|by intros [[=] _]].
      * split; [done|]. intros [Hno _]. by destruct (Hno text).
    + split; [|split].
      * intros text'. split; [done|]. by intros [= ? ?].
      * intros e. split; [done|by intros [[=] _]].
      * split; [|done]. intros _. split; [by intros text' [= ? ?]|done].
  - destruct (is_RequestException e) eqn:He.
    + split; [|split].
      * intros text. split; done.
      * intros e'. split; [done|]. intros [[= <-] He']. congruence.
      * split; [|done]. intros _. split; [done|]. by intros e' [= <-].
    + split; [|split].
      * intros text. split; done.
      * intros e'. split; [by intros [= <-]|by intros [[= <-] _]].
      * split; [done|]. intros [_ Hyes]. specialize (Hyes e eq_refl). congruence.
  - split; [|split].
    + intros text. split; done.
    + intros e. split; [done|by intros [[=] _]].
    + split; [|done]. intros _. split; done.
Qed.

(** X3.  An exception from outside the [requests] hierarchy is not
    caught: when the request of the first attempt raises one, it leaves the
    fetch at once, with no log line, no sleep and no retry. *)
Theorem fetch_propagates_other_exception (srv : server) (url : string)
    (tr : trace) (e : exn) :
  srv tr url = Failure e ->
  is_RequestException e = false ->
  run srv (fetch_with_retries url) tr = (Uncaught e, [EvGet url 15 (Failure e)]).
Proof.
  intros Hsrv He. unfold fetch_with_retries. cbn [seq MAX_RETRIES].
  rewrite run_fetch_loop_cons. cbv zeta. rewrite Hsrv. simpl. by rewrite He.
Qed.

Lemma fetch_propagates_other_exception_witness :
  run (fun _ _ => Failure (Exn OtherError "interrupted"))
      (fetch_with_retries BASE_URL) []
  = (Uncaught (Exn OtherError "interrupted"),
     [EvGet BASE_URL 15 (Failure (Exn OtherError "interrupted"))]).
Proof.
  apply (fetch_propagates_other_exception
           (fun _ _ => Failure (Exn OtherError "interrupted")) BASE_URL []);
    reflexivity.
Defined.

(** ** The listing extractor *)

Lemma unit_links_omap (unit_divs : list node) :
  unit_links unit_divs = omap unit_link unit_divs.
Proof. reflexivity. Qed.

Lemma omap_length_le {A B : Type} (f : A -> option B) (l : list A) :
  (length (omap f l) <= length l)%nat.
Proof.
  induction l as [|x l IH]; csimpl; [done|].
  destruct (f x); csimpl; lia.
Qed.

Lemma unit_links_truthy (unit_divs : list node) :
  Forall (fun href => falsy href = false) (unit_links unit_divs).
Proof.
  rewrite unit_links_omap. apply Forall_forall. intros href Hin.
  apply list_elem_of_omap in Hin as (div & _ & Hdiv).
  unfold unit_link in Hdiv.
  destruct (find div "a" _) as [link|]; [|done].
  destruct (tag_get link "href") as [href'|]; [|done].
  destruct (falsy href') eqn:Hf; [done|]. by injection Hdiv as <-.
Qed.

(** X4.  The links of a list of items come in the order of the items, one
    at most per item: an item contributes the [href] of its first
    [a.wt-tree_item-link] when that link has a non-empty [href], and nothing
    otherwise; so no returned URL is empty and there are no more URLs than
    items. *)
Theorem unit_links_in_order (divs1 divs2 : list node) (href : string) :
  unit_links (divs1 ++ divs2) = unit_links divs1 ++ unit_links divs2
  /\ (length (unit_links divs1) <= length divs1)%nat
  /\ Forall (fun h => falsy h = false) (unit_links divs1)
  /\ (href ∈ unit_links divs1 <->
      exists div link,
        div ∈ divs1
        /\ find div "a" (Some "wt-tree_item-link") = Some link
        /\ tag_get link "href" = Some href
        /\ falsy href = false).
Proof.
  split; [|split; [|split]].
  - rewrite !unit_links_omap. apply omap_app.
  - rewrite unit_links_omap. apply omap_length_le.
  - apply unit_links_truthy.
  - rewrite unit_links_omap, list_elem_of_omap. split.
    + intros (div & Hin & Hdiv). unfold unit_link in Hdiv.
      destruct (find div "a" _) as [link|] eqn:Hlink; [|done].
      destruct (tag_get link "href") as [href'|] eqn:Hhref; [|done].
      destruct (falsy href') eqn:Hf; [done|]. injection Hdiv as <-.
      by exists div, link.
    + intros (div & link & Hin & Hlink & Hhref & Hf).
      exists div. split; [done|]. unfold unit_link.
      by rewrite Hlink, Hhref, Hf.
Qed.

(** The requests and the result of the listing extractor. *)
Lemma get_unit_urls_shape (BeautifulSoup : string -> node)
    (srv : server) (tech_tree_path : string) (tr : trace) :
  let r := fst (run srv (get_unit_urls BeautifulSoup tech_tree_path) tr) in
  let evs := snd (run srv (get_unit_urls BeautifulSoup tech_tree_path) tr) in
  requests evs = replicate (count_gets evs) (listing_url tech_tree_path, 15)
  /\ (1 <= count_gets evs <= MAX_RETRIES)%nat
  /\ (forall urls, r = Returned urls ->
                   Forall (fun href => falsy href = false) urls)
  /\ ((forall tr' e, srv tr' (listing_url tech_tree_path) = Failure e ->
                     is_RequestException e = true) ->
      exists urls, r = Returned urls).
Proof.
  cbv zeta. rewrite run_get_unit_urls. cbv zeta.
  pose proof (fetch_shape srv (listing_url tech_tree_path)
                (tr ++ [listing_step tech_tree_path])) as Hshape.
  pose proof (fun H => fetch_loop_returns srv (listing_url tech_tree_path) H
                         (seq 0 MAX_RETRIES) 1
                         (tr ++ [listing_step tech_tree_path])) as Hret.
  fold (fetch_with_retries (listing_url tech_tree_path)) in Hret.
  cbv zeta in Hshape.
  destruct (run srv (fetch_with_retries _) _) as [r evs].
  cbn [snd] in Hshape. destruct Hshape as (Hreq & Hcount & _).
  assert (forall ev : event,
             requests (listing_step tech_tree_path :: evs ++ [ev])
             = requests evs ++ requests [ev]
             /\ count_gets (listing_step tech_tree_path :: evs ++ [ev])
                = (count_gets evs + count_gets [ev])%nat) as Hwrap.
  { intros ev. split.
    - unfold listing_step at 1. cbn [requests]. apply requests_app.
    - change (listing_step tech_tree_path :: evs ++ [ev])
        with ([listing_step tech_tree_path] ++ evs ++ [ev]).
      by rewrite !count_gets_app. }
  destruct r as [[html|]|e].
  - destruct (falsy html); cbn [fst snd].
    + destruct (Hwrap (listing_failed tech_tree_path)) as [-> ->].
      simpl. rewrite app_nil_r, Nat.add_0_r.
      repeat split; try done; try lia.
      * by intros urls [= <-].
      * eauto.
    + match goal with |- context [evs ++ [?ev]] =>
        destruct (Hwrap ev) as [-> ->] end.
      simpl. rewrite app_nil_r, Nat.add_0_r.
      repeat split; try done; try lia.
      * intros urls [= <-]. apply unit_links_truthy.
      * eauto.
  - cbn [fst snd].
    destruct (Hwrap (listing_failed tech_tree_path)) as [-> ->].
    simpl. rewrite app_nil_r, Nat.add_0_r.
    repeat split; try done; try lia.
    + by intros urls [= <-].
    + eauto.
  - cbn [fst snd].
    assert (count_gets (listing_step tech_tree_path :: evs) = count_gets evs)
      as -> by reflexivity.
    assert (requests (listing_step tech_tree_path :: evs) = requests evs)
      as -> by reflexivity.
    repeat split; try done; try lia.
    intros Hsrv. destruct (Hret Hsrv) as (html & evs' & [=]).
Qed.

(** X5.  Whatever the server answers, the listing extractor makes between
    one and [MAX_RETRIES] requests, all for the listing URL of its category
    with a timeout of 15 seconds, and the URLs it returns are never
    empty. *)
Theorem get_unit_urls_requests (BeautifulSoup : string -> node)
    (srv : server) (tech_tree_path : string) (tr : trace) :
  let r := fst (run srv (get_unit_urls BeautifulSoup tech_tree_path) tr) in
  let evs := snd (run srv (get_unit_urls BeautifulSoup tech_tree_path) tr) in
  requests evs = replicate (count_gets evs) (listing_url tech_tree_path, 15)
  /\ (1 <= count_gets evs <= MAX_RETRIES)%nat
  /\ (forall urls, r = Returned urls ->
                   Forall (fun href => falsy href = false) urls).
Proof.
  cbv zeta.
  pose proof (get_unit_urls_shape BeautifulSoup srv tech_tree_path tr) as H.
  cbv zeta in H. destruct H as (Hreq & Hcount & Hurls & _).
  split; [exact Hreq|]. split; [exact Hcount|exact Hurls].
Qed.

(** ** The detail extractor *)

(** X6.  Whatever the server answers, the detail extractor first sleeps
    [REQUEST_DELAY], then makes between one and [MAX_RETRIES] requests, all
    for [BASE_URL + unit_url] with a timeout of 15 seconds; it sleeps
    [REQUEST_DELAY] plus at most 31 seconds of backoff; and when it returns,
    the last thing it did was to print one line. *)
Theorem extract_total_cost_shape (BeautifulSoup : string -> node)
    (srv : server) (unit_url : string) (index total_units : Z) (tr : trace) :
  let r :=
    fst (run srv (extract_total_cost BeautifulSoup unit_url index total_units) tr) in
  let evs :=
    snd (run srv (extract_total_cost BeautifulSoup unit_url index total_units) tr) in
  head evs = Some (EvSleep REQUEST_DELAY)
  /\ requests evs = replicate (count_gets evs) (BASE_URL +:+ unit_url, 15)
  /\ (1 <= count_gets evs <= MAX_RETRIES)%nat
  /\ (exists delays : list Z,
         sleeps evs = REQUEST_DELAY :: map inject_Z delays
         /\ sumZ delays <= 31)
  /\ (forall v, r = Returned v -> exists line, last evs = Some (EvPrint line)).
Proof.
  cbv zeta. rewrite run_extract_total_cost. cbv zeta.
  pose proof (fetch_shape srv (BASE_URL +:+ unit_url)
                (tr ++ [EvSleep REQUEST_DELAY])) as Hshape.
  cbv zeta in Hshape.
  destruct (run srv (fetch_with_retries _) _) as [r evs].
  cbn [snd] in Hshape. destruct Hshape as (Hreq & Hcount & delays & Hs & Hsum).
  assert (forall line : string,
             requests (EvSleep REQUEST_DELAY :: evs ++ [EvPrint line])
             = requests evs
             /\ count_gets (EvSleep REQUEST_DELAY :: evs ++ [EvPrint line])
                = count_gets evs
             /\ sleeps (EvSleep REQUEST_DELAY :: evs ++ [EvPrint line])
                = REQUEST_DELAY :: sleeps evs
             /\ last (EvSleep REQUEST_DELAY :: evs ++ [EvPrint line])
                = Some (EvPrint line)) as Hwrap.
  { intros line. split; [|split; [|split]].
    - cbn [requests]. rewrite requests_app. simpl. apply app_nil_r.
    - change (EvSleep REQUEST_DELAY :: evs ++ [EvPrint line])
        with ([EvSleep REQUEST_DELAY] ++ evs ++ [EvPrint line]).
      rewrite !count_gets_app. unfold count_gets at 1 3. simpl. lia.
    - cbn [sleeps]. rewrite sleeps_app. simpl. by rewrite app_nil_r.
    - by rewrite app_comm_cons, last_snoc. }
  assert (forall (v : Z) (line : string),
             let evs' := EvSleep REQUEST_DELAY :: evs ++ [EvPrint line] in
             head evs' = Some (EvSleep REQUEST_DELAY)
             /\ requests evs'
                = replicate (count_gets evs') (BASE_URL +:+ unit_url, 15)
             /\ (1 <= count_gets evs' <= MAX_RETRIES)%nat
             /\ (exists delays : list Z,
                    sleeps evs' = REQUEST_DELAY :: map inject_Z delays
                    /\ sumZ delays <= 31)
             /\ (forall v', Returned v = Returned v' ->
                            exists line', last evs' = Some (EvPrint line')))
    as Hok.
  { intros v line. cbv zeta.
    destruct (Hwrap line) as (-> & -> & -> & ->).
    split; [done|]. split; [done|]. split; [done|].
    split; [exists delays; by rewrite Hs|]. eauto. }
  destruct r as [[html|]|e]; cbn [fst snd].
  - destruct (falsy html); cbn [fst snd].
    + apply (Hok 0).
    + unfold unit_info. apply Hok.
  - apply (Hok 0).
  - split; [done|]. cbn [requests sleeps].
    assert (count_gets (EvSleep REQUEST_DELAY :: evs) = count_gets evs)
      as -> by reflexivity.
    split; [done|]. split; [done|].
    split; [exists delays; by rewrite Hs|]. done.
Qed.

(** ** The worker pool: concurrency bound, queue order, progress *)

Lemma count_running_insert (fs : list future) (i : nat) (f f' : future) :
  fs !! i = Some f ->
  (count_running (<[i := f']> fs) + Nat.b2n (is_running f)
   = count_running fs + Nat.b2n (is_running f'))%nat.
Proof.
  unfold count_running. revert i.
  induction fs as [|f0 fs IH]; intros [|i] H; try done; simpl in H.
  - injection H as ->. simpl. destruct (is_running f), (is_running f'); simpl; lia.
  - simpl. specialize (IH i H). destruct (is_running f0); simpl; lia.
Qed.

Lemma pool_step_bounded (srv : server) (workers : nat) (s s' : pool) :
  pool_step srv workers s s' ->
  (count_running (futures s) <= workers)%nat ->
  (count_running (futures s') <= workers)%nat.
Proof.
  intros Hstep.
  destruct Hstep as [i task fs total tr exc Hi _ Hlt
                    |i task task' ev fs total tr exc Hi _
                    |i task r fs total tr exc Hi _
                    |i v fs total tr Hi
                    |i e fs total tr Hi]; simpl; intros Hle;
    match goal with
    | |- (count_running (<[_ := ?f']> _) <= _)%nat =>
        pose proof (count_running_insert _ _ _ f' Hi) as Hc
    end; simpl in Hc; lia.
Qed.

(** X7.  The pool never runs more tasks than it has workers: from the
    futures as submitted, in every state the pool can reach at most
    [workers] futures are running. *)
Theorem pool_bounded_concurrency (srv : server) (workers : nat)
    (tasks : list (prog Z)) (total : Z) (tr : trace) (exc : option exn)
    (s : pool) :
  pool_steps srv workers (Pool (map Pending tasks) total tr exc) s ->
  (count_running (futures s) <= workers)%nat.
Proof.
  intros Hsteps.
  remember (Pool (map Pending tasks) total tr exc) as s0 eqn:Hs0.
  induction Hsteps as [s|s1 s2 s3 _ IH Hstep].
  - subst s. simpl. unfold count_running.
    assert (List.filter is_running (map Pending tasks) = []) as ->.
    { clear. induction tasks; simpl; done. }
    simpl. lia.
  - eapply pool_step_bounded; [exact Hstep|]. by apply IH.
Qed.

Lemma pool_bounded_concurrency_witness :
  exists s,
    pool_steps unreachable 1
      (Pool (map Pending [Ret 1; Ret 2]) 0 [] None) s
    /\ count_running (futures s) = 1%nat
    /\ (count_running (futures s) <= 1)%nat.
Proof.
  exists (Pool [Running (Ret 1); Pending (Ret 2)] 0 [] None).
  assert (pool_steps unreachable 1
            (Pool (map Pending [Ret 1; Ret 2]) 0 [] None)
            (Pool [Running (Ret 1); Pending (Ret 2)] 0 [] None)) as Hsteps.
  { eapply steps_step; [apply steps_refl|].
    apply (step_start unreachable 1 0 (Ret 1)
             [Pending (Ret 1); Pending (Ret 2)] 0 [] None);
      [reflexivity|reflexivity|unfold count_running; simpl; lia]. }
  split; [exact Hsteps|]. split; [reflexivity|].
  exact (pool_bounded_concurrency unreachable 1 [Ret 1; Ret 2] 0 [] None _ Hsteps).
Defined.

Lemma queue_from_lt (tasks : list (prog Z)) (fs : list future) (n i : nat)
    (f : future) :
  queue_from tasks fs n -> fs !! i = Some f -> is_pending f = false ->
  (i < n)%nat.
Proof.
  intros [_ Hdrop] Hi Hf. destruct (decide (i < n)%nat) as [|Hge]; [done|].
  exfalso. pose proof (lookup_drop fs n (i - n)) as Hd.
  replace (n + (i - n))%nat with i in Hd by lia.
  rewrite Hi, Hdrop in Hd. apply list_lookup_fmap_Some in Hd as (task & -> & _).
  done.
Qed.

Lemma queue_from_keep (tasks : list (prog Z)) (fs : list future) (n i : nat)
    (f f' : future) :
  queue_from tasks fs n -> fs !! i = Some f -> is_pending f = false ->
  is_pending f' = false ->
  queue_from tasks (<[i := f']> fs) n.
Proof.
  intros Hq Hi Hf Hf'. pose proof (queue_from_lt _ _ _ _ _ Hq Hi Hf) as Hlt.
  destruct Hq as [Htake Hdrop]. split.
  - rewrite take_insert_lt by done. apply forallb_insert; [done|].
    by rewrite Hf'.
  - by rewrite drop_insert_lt.
Qed.

Lemma queue_from_start (tasks : list (prog Z)) (fs : list future) (n i : nat)
    (task : prog Z) :
  queue_from tasks fs n ->
  fs !! i = Some (Pending task) ->
  forallb (fun f => negb (is_pending f)) (take i fs) = true ->
  i = n /\ tasks !! n = Some task
  /\ queue_from tasks (<[i := Running task]> fs) (S n).
Proof.
  intros [Htake Hdrop] Hi Hbefore.
  assert (forall (j m : nat) (f : future),
             forallb (fun f => negb (is_pending f)) (take m fs) = true ->
             fs !! j = Some f -> (j < m)%nat -> is_pending f = false) as Hnot.
  { intros j m f Hall Hj Hjm. rewrite forallb_forall in Hall.
    apply negb_true_iff, Hall, list_elem_of_In, elem_of_take. eauto. }
  assert (i = n) as ->.
  { destruct (Nat.lt_trichotomy i n) as [Hlt|[->|Hgt]]; [exfalso|done|exfalso].
    - by specialize (Hnot i n _ Htake Hi Hlt).
    - assert (exists f, fs !! n = Some f) as [f Hn].
      { apply lookup_lt_is_Some. apply lookup_lt_Some in Hi. lia. }
      pose proof (Hnot n i f Hbefore Hn Hgt) as Hf.
      assert (drop n fs !! 0%nat = Some f) as Hd.
      { rewrite lookup_drop. by rewrite Nat.add_0_r. }
      rewrite Hdrop in Hd. apply list_lookup_fmap_Some in Hd as (t & -> & _).
      done. }
  assert (tasks !! n = Some task) as Htask.
  { assert (drop n fs !! 0%nat = Some (Pending task)) as Hd.
    { rewrite lookup_drop. by rewrite Nat.add_0_r. }
    rewrite Hdrop in Hd. apply list_lookup_fmap_Some in Hd as (t & [= ->] & Ht).
    rewrite lookup_drop, Nat.add_0_r in Ht. done. }
  split; [done|]. split; [done|]. split.
  - rewrite (take_S_r _ _ (Running task)).
    + rewrite take_insert_ge by lia. rewrite forallb_app, Htake. done.
    + apply list_lookup_insert_eq. by eapply lookup_lt_Some.
  - rewrite drop_insert_lt by lia.
    rewrite (drop_S _ _ _ Hi) in Hdrop. rewrite (drop_S _ _ _ Htask) in Hdrop.
    simpl in Hdrop. by injection Hdrop.
Qed.

Lemma pool_step_queue (srv : server) (workers : nat) (tasks : list (prog Z))
    (s s' : pool) (n : nat) :
  pool_step srv workers s s' ->
  queue_from tasks (futures s) n ->
  exists n', (n <= n')%nat /\ queue_from tasks (futures s') n'.
Proof.
  intros Hstep Hq.
  destruct Hstep as [i task fs total tr exc Hi Hbefore _
                    |i task task' ev fs total tr exc Hi _
                    |i task r fs total tr exc Hi _
                    |i v fs total tr Hi
                    |i e fs total tr Hi]; simpl in *.
  - destruct (queue_from_start _ _ _ _ _ Hq Hi Hbefore) as (_ & _ & Hq').
    exists (S n). split; [lia|done].
  - exists n. split; [done|]. by eapply queue_from_keep.
  - exists n. split; [done|]. by eapply queue_from_keep.
  - exists n. split; [done|]. by eapply queue_from_keep.
  - exists n. split; [done|]. by eapply queue_from_keep.
Qed.

(** X8.  The pool takes the tasks from its queue in the order they were
    submitted: in every state it can reach, the futures started so far are
    the first ones, and the others are still the pending tasks as
    submitted; and a task is only ever started when it is the first one of
    that queue. *)
Theorem pool_starts_in_order (srv : server) (workers : nat)
    (tasks : list (prog Z)) (total : Z) (tr : trace) (exc : option exn)
    (s : pool) :
  pool_steps srv workers (Pool (map Pending tasks) total tr exc) s ->
  exists n,
    queue_from tasks (futures s) n
    /\ forall (i : nat) (task : prog Z) (s' : pool),
         futures s !! i = Some (Pending task) ->
         futures s' = <[i := Running task]> (futures s) ->
         pool_step srv workers s s' ->
         i = n /\ tasks !! n = Some task.
Proof.
  intros Hsteps.
  assert (exists n, queue_from tasks (futures s) n) as [n Hq].
  { remember (Pool (map Pending tasks) total tr exc) as s0 eqn:Hs0.
    induction Hsteps as [s|s1 s2 s3 _ IH Hstep].
    - subst s. exists 0%nat. by split.
    - destruct (IH Hs0) as [n Hq].
      destruct (pool_step_queue _ _ _ _ _ _ Hstep Hq) as (n' & _ & Hq').
      by exists n'. }
  exists n. split; [done|]. intros i task s' Hi Hfs Hstep.
  destruct Hstep as [j task' fs total' tr' exc' Hj Hbefore _
                    |j task' task'' ev fs total' tr' exc' Hj _
                    |j task' r fs total' tr' exc' Hj _
                    |j v fs total' tr' Hj
                    |j e fs total' tr' Hj]; simpl in *.
  - assert (j = i) as ->.
    { destruct (decide (j = i)) as [|Hne]; [done|]. exfalso.
      assert ((<[j := Running task']> fs) !! i = Some (Pending task)) as H1
        by by rewrite list_lookup_insert_ne.
      rewrite Hfs in H1. rewrite list_lookup_insert_eq in H1; [done|].
      by eapply lookup_lt_Some. }
    destruct (queue_from_start _ _ _ _ _ Hq Hi Hbefore) as (-> & Htask & _).
    done.
  - exfalso. assert (j <> i) as Hne by (intros ->; congruence).
    assert ((<[j := Running task'']> fs) !! i = Some (Pending task)) as H1
      by by rewrite list_lookup_insert_ne.
    rewrite Hfs in H1. rewrite list_lookup_insert_eq in H1; [done|].
    by eapply lookup_lt_Some.
  - exfalso. assert (j <> i) as Hne by (intros ->; congruence).
    assert ((<[j := Finished r]> fs) !! i = Some (Pending task)) as H1
      by by rewrite list_lookup_insert_ne.
    rewrite Hfs in H1. rewrite list_lookup_insert_eq in H1; [done|].
    by eapply lookup_lt_Some.
  - exfalso. assert (j <> i) as Hne by (intros ->; congruence).
    assert ((<[j := Yielded (Returned v)]> fs) !! i = Some (Pending task)) as H1
      by by rewrite list_lookup_insert_ne.
    rewrite Hfs in H1. rewrite list_lookup_insert_eq in H1; [done|].
    by eapply lookup_lt_Some.
  - exfalso. assert (j <> i) as Hne by (intros ->; congruence).
    assert ((<[j := Yielded (Uncaught e)]> fs) !! i = Some (Pending task)) as H1
      by by rewrite list_lookup_insert_ne.
    rewrite Hfs in H1. rewrite list_lookup_insert_eq in H1; [done|].
    by eapply lookup_lt_Some.
Qed.

Lemma pool_starts_in_order_witness :
  exists s1 s2 : pool,
    pool_steps unreachable 2 (Pool (map Pending [Ret 1; Ret 2]) 0 [] None) s1
    /\ futures s1 = [Running (Ret 1); Pending (Ret 2)]
    /\ pool_step unreachable 2 s1 s2
    /\ futures s2 = [Running (Ret 1); Running (Ret 2)]
    /\ exists n,
         queue_from [Ret 1; Ret 2] (futures s1) n
         /\ n = 1%nat
         /\ [Ret 1; Ret 2] !! n = Some (Ret 2).
Proof.
  set (s0 := Pool (map Pending [Ret 1; Ret 2]) 0 [] None).
  set (s1 := Pool [Running (Ret 1); Pending (Ret 2)] 0 [] None).
  set (s2 := Pool [Running (Ret 1); Running (Ret 2)] 0 [] None).
  assert (pool_step unreachable 2 s0 s1) as Hstart1.
  { apply (step_start unreachable 2 0 (Ret 1)
             [Pending (Ret 1); Pending (Ret 2)] 0 [] None);
      [reflexivity|reflexivity|unfold count_running; simpl; lia]. }
  assert (pool_step unreachable 2 s1 s2) as Hstart2.
  { apply (step_start unreachable 2 1 (Ret 2)
             [Running (Ret 1); Pending (Ret 2)] 0 [] None);
      [reflexivity|reflexivity|unfold count_running; simpl; lia]. }
  assert (pool_steps unreachable 2 s0 s1) as Hsteps
    by (eapply steps_step; [apply steps_refl|exact Hstart1]).
  exists s1, s2. split; [exact Hsteps|]. split; [reflexivity|].
  split; [exact Hstart2|]. split; [reflexivity|].
  destruct (pool_starts_in_order unreachable 2 [Ret 1; Ret 2] 0 [] None s1
              Hsteps) as (n & Hq & Horder).
  destruct (Horder 1%nat (Ret 2) s2 eq_refl eq_refl Hstart2) as [Hn Htask].
  exists n. split; [exact Hq|]. split; [by symmetry|exact Htask].
Defined.

Lemma first_pending (fs : list future) :
  existsb is_pending fs = true ->
  exists i task,
    fs !! i = Some (Pending task)
    /\ forallb (fun f => negb (is_pending f)) (take i fs) = true.
Proof.
  induction fs as [|f fs IH]; simpl; [done|].
  destruct f as [task|task|r|r]; simpl.
  - intros _. by exists 0%nat, task.
  - intros H. destruct (IH H) as (i & task' & Hi & Hbefore).
    exists (S i), task'. by split.
  - intros H. destruct (IH H) as (i & task' & Hi & Hbefore).
    exists (S i), task'. by split.
  - intros H. destruct (IH H) as (i & task' & Hi & Hbefore).
    exists (S i), task'. by split.
Qed.

Lemma some_future (P : future -> bool) (fs : list future) :
  existsb P fs = true -> exists i f, fs !! i = Some f /\ P f = true.
Proof.
  induction fs as [|f fs IH]; simpl; [done|].
  destruct (P f) eqn:Hf; simpl.
  - intros _. by exists 0%nat, f.
  - intros H. destruct (IH H) as (i & f' & Hi & Hf'). by exists (S i), f'.
Qed.

Lemma no_future (P : future -> bool) (fs : list future) :
  existsb P fs = false -> forallb (fun f => negb (P f)) fs = true.
Proof.
  induction fs as [|f fs IH]; simpl; [done|].
  destruct (P f); simpl; [done|]. exact IH.
Qed.

(** X9.  A pool with at least one worker is never stuck: in any state,
    either some step is possible, or every future has been handed out and
    [main] leaves the pool normally, or [main] is propagating an exception
    and no task is pending or running. *)
Theorem pool_progress (srv : server) (workers : nat) (s : pool) :
  (1 <= workers)%nat ->
  (exists s', pool_step srv workers s s')
  \/ completed s
  \/ (exists e, aborted s e).
Proof.
  intros Hw. destruct s as [fs total tr exc].
  destruct (existsb is_running fs) eqn:Hrun.
  { left. apply some_future in Hrun as (i & f & Hi & Hf).
    destruct f as [task|task|r|r]; try done.
    destruct (final task) as [r|] eqn:Hfin.
    - eexists. by eapply step_finish.
    - destruct (perform srv task tr) as [[task' ev]|] eqn:Hperf.
      + eexists. by eapply step_effect.
      + by destruct task. }
  apply no_future in Hrun.
  destruct (existsb is_pending fs) eqn:Hpend.
  { left. apply first_pending in Hpend as (i & task & Hi & Hbefore).
    eexists. eapply step_start; [done..|].
    assert (count_running fs = 0%nat) as ->; [|lia].
    unfold count_running. clear -Hrun.
    induction fs as [|f fs IH]; simpl in *; [done|].
    apply andb_prop in Hrun as [Hf Hrun].
    destruct (is_running f); [done|]. by apply IH. }
  apply no_future in Hpend.
  destruct exc as [e|].
  { right. right. exists e. split; [done|]. simpl. clear -Hrun Hpend.
    induction fs as [|f fs IH]; simpl in *; [done|].
    apply andb_prop in Hrun as [Hf Hrun]. apply andb_prop in Hpend as [Hf' Hpend].
    rewrite IH by done. by destruct f. }
  destruct (existsb is_finished fs) eqn:Hfin.
  { left. apply some_future in Hfin as (i & f & Hi & Hf).
    destruct f as [task|task|[v|e]|r]; try done.
    - eexists. by eapply step_result.
    - eexists. by eapply step_reraise. }
  apply no_future in Hfin.
  right. left. split; [|done]. simpl. clear -Hrun Hpend Hfin.
  induction fs as [|f fs IH]; simpl in *; [done|].
  apply andb_prop in Hrun as [Hf Hrun]. apply andb_prop in Hpend as [Hf' Hpend].
  apply andb_prop in Hfin as [Hf'' Hfin].
  rewrite IH by done. by destruct f.
Qed.

Lemma pool_progress_witness :
  (exists s',
      pool_step unreachable CONCURRENT_WORKERS
        (Pool [Finished (Returned 5)] 0 [] None) s')
  \/ completed (Pool [Finished (Returned 5)] 0 [] None)
  \/ (exists e, aborted (Pool [Finished (Returned 5)] 0 [] None) e).
Proof.
  apply (pool_progress unreachable CONCURRENT_WORKERS).
  unfold CONCURRENT_WORKERS. lia.
Defined.

Lemma pool_step_keeps (srv : server) (workers : nat) (s s' : pool) :
  pool_step srv workers s s' ->
  (exists evs, history s' = history s ++ evs)
  /\ length (futures s') = length (futures s)
  /\ (forall i r, futures s !! i = Some (Yielded r) ->
                  futures s' !! i = Some (Yielded r))
  /\ (forall e, raised s = Some e ->
                raised s' = Some e /\ total_cost s' = total_cost s).
Proof.
  intros Hstep.
  destruct Hstep as [i task fs total tr exc Hi _ _
                    |i task task' ev fs total tr exc Hi _
                    |i task r fs total tr exc Hi _
                    |i v fs total tr Hi
                    |i e fs total tr Hi]; simpl;
    (split; [first [by exists [ev] | exists []; by rewrite app_nil_r]|]);
    (split; [apply length_insert|]);
    (split; [|done]);
    intros j r' Hj;
    (rewrite list_lookup_insert_ne; [done|]); intros <-; congruence.
Qed.

(** X10.  Along any run of the pool nothing is undone: the history only
    grows at its end, the number of futures stays the same, a future that
    was handed out keeps its result, and once [main] is propagating an
    exception, that exception and [total_cost] no longer change. *)
Theorem pool_steps_keep (srv : server) (workers : nat) (s s' : pool) :
  pool_steps srv workers s s' ->
  (exists evs, history s' = history s ++ evs)
  /\ length (futures s') = length (futures s)
  /\ (forall i r, futures s !! i = Some (Yielded r) ->
                  futures s' !! i = Some (Yielded r))
  /\ (forall e, raised s = Some e ->
                raised s' = Some e /\ total_cost s' = total_cost s).
Proof.
  intros Hsteps. induction Hsteps as [s|s1 s2 s3 _ IH Hstep].
  - split; [exists []; by rewrite app_nil_r|]. done.
  - destruct IH as ([evs Hh] & Hlen & Hy & Hexc).
    destruct (pool_step_keeps _ _ _ _ Hstep) as ([evs' Hh'] & Hlen' & Hy' & Hexc').
    split; [exists (evs ++ evs'); by rewrite Hh', Hh, app_assoc|].
    split; [by rewrite Hlen'|]. split; [by eauto|].
    intros e He. destruct (Hexc e He) as [He2 Ht2].
    destruct (Hexc' e He2) as [He3 Ht3]. split; [done|]. by rewrite Ht3.
Qed.

Lemma pool_steps_keep_witness :
  exists s',
    pool_steps unreachable 1 (Pool [Finished (Returned 5)] 0 [] None) s'
    /\ total_cost s' = 5
    /\ length (futures s') = 1%nat.
Proof.
  exists (Pool [Yielded (Returned 5)] 5 [] None).
  assert (pool_steps unreachable 1 (Pool [Finished (Returned 5)] 0 [] None)
            (Pool [Yielded (Returned 5)] 5 [] None)) as Hsteps.
  { eapply steps_step; [apply steps_refl|].
    by apply (step_result unreachable 1 0 5 [Finished (Returned 5)] 0 []). }
  split; [exact Hsteps|]. split; [reflexivity|].
  exact (proj1 (proj2 (pool_steps_keep unreachable 1 _ _ Hsteps))).
Defined.

(** ** The pool against a server that answers by URL alone *)

Lemma ends_on_run {A : Type} (pages : string -> outcome) (p : prog A) :
  forall tr, ends_on pages p (fst (run (static pages) p tr)).
Proof.
  induction p as [a|e|url timeout k IH|d k IH|line k IH]; intros tr; simpl.
  - constructor.
  - constructor.
  - change (static pages tr url) with (pages url).
    specialize (IH (pages url) (tr ++ [EvGet url timeout (pages url)])).
    destruct (run (static pages) (k _) _). by constructor.
  - specialize (IH (tr ++ [EvSleep d])).
    destruct (run (static pages) k _). by constructor.
  - specialize (IH (tr ++ [EvPrint line])).
    destruct (run (static pages) k _). by constructor.
Qed.

(** Against such a server a program has one way to end. *)
Lemma ends_on_unique {A : Type} (pages : string -> outcome) (p : prog A)
    (r1 r2 : result A) :
  ends_on pages p r1 -> ends_on pages p r2 -> r1 = r2.
Proof.
  intros H1. revert r2.
  induction H1 as [a|e|url timeout k r _ IH|d k r _ IH|line k r _ IH];
    intros r2 H2; inversion H2; subst; auto.
Qed.

Lemma perform_ends_on {A : Type} (pages : string -> outcome) (p p' : prog A)
    (tr : trace) (ev : event) (r : result A) :
  perform (static pages) p tr = Some (p', ev) ->
  ends_on pages p' r -> ends_on pages p r.
Proof.
  destruct p as [a|e|url timeout k|d k|line k]; simpl; intros [= <- <-] H;
    by constructor.
Qed.

Lemma final_ends_on {A : Type} (pages : string -> outcome) (p : prog A)
    (r : result A) :
  final p = Some r -> ends_on pages p r.
Proof.
  destruct p as [a|e|url timeout k|d k|line k]; simpl; intros [= <-];
    constructor.
Qed.

Lemma future_on_insert (pages : string -> outcome) (tasks : list (prog Z))
    (fs : list future) (i : nat) (f f' : future) :
  Forall2 (future_on pages) tasks fs ->
  fs !! i = Some f ->
  (forall task, future_on pages task f -> future_on pages task f') ->
  Forall2 (future_on pages) tasks (<[i := f']> fs).
Proof.
  intros Hall Hi Hf.
  destruct (Forall2_lookup_r _ _ _ _ _ Hall Hi) as (task & Htask & Hof).
  rewrite <- (list_insert_id tasks i task Htask).
  apply Forall2_insert; [done|]. by apply Hf.
Qed.

Lemma pool_steps_on (pages : string -> outcome) (workers : nat)
    (tasks : list (prog Z)) (s s' : pool) :
  Forall2 (future_on pages) tasks (futures s) ->
  pool_steps (static pages) workers s s' ->
  Forall2 (future_on pages) tasks (futures s').
Proof.
  intros Hinv Hsteps. induction Hsteps as [s|s1 s2 s3 _ IH Hstep]; [done|].
  specialize (IH Hinv).
  destruct Hstep as [i task fs total tr exc Hi _ _
                    |i task task' ev fs total tr exc Hi Hperf
                    |i task r fs total tr exc Hi Hfin
                    |i v fs total tr Hi
                    |i e fs total tr Hi]; simpl in *;
    (eapply future_on_insert; [done..|]); simpl.
  - by intros task0 <-.
  - intros task0 H r Hr. apply H. by eapply perform_ends_on.
  - intros task0 H. apply H. by apply final_ends_on.
  - done.
  - done.
Qed.

(** The total of a pool that was left normally, against such a server: the
    sum of what each task returns when run alone. *)
Lemma completed_total_on (pages : string -> outcome) (workers : nat)
    (tasks : list (prog Z)) (tr : trace) (s : pool) :
  pool_steps (static pages) workers (Pool (map Pending tasks) 0 tr None) s ->
  completed s ->
  exists costs : list Z,
    Forall2 (fun task v => fst (run (static pages) task []) = Returned v)
            tasks costs
    /\ total_cost s = sumZ costs.
Proof.
  intros Hsteps Hdone.
  pose proof (pool_steps_inv any_outcome _ _ _ _ _ (fun _ _ => I)
                (pool_init_inv _ _ tr) Hsteps) as Hinv.
  destruct (completed_total _ _ _ Hinv Hdone) as (costs & _ & Hfs & Htot).
  exists costs. split; [|done].
  assert (Forall2 (future_on pages) tasks (futures s)) as Hon.
  { eapply pool_steps_on; [|exact Hsteps]. simpl.
    clear. induction tasks; constructor; done. }
  rewrite Hfs in Hon. clear -Hon.
  revert tasks Hon. induction costs as [|v costs IH]; intros tasks Hon;
    inversion Hon as [|task f tasks' fs' Hf Hrest]; subst; constructor.
  - simpl in Hf. eapply ends_on_unique; [apply ends_on_run|exact Hf].
  - by apply IH.
Qed.



(** ** Collecting the unit URLs *)







(** ** [main] completes *)

Lemma get_unit_urls_returns (BeautifulSoup : string -> node) (srv : server)
    (tech_tree_path : string) (tr : trace) :
  (forall tr' url, request_outcome (srv tr' url)) ->
  exists urls evs,
    run srv (get_unit_urls BeautifulSoup tech_tree_path) tr
    = (Returned urls, evs).
Proof.
  intros Hreq. rewrite run_get_unit_urls. cbv zeta.
  destruct (fetch_loop_returns srv (listing_url tech_tree_path)
              (fun tr' e H => eq_ind _ request_outcome (Hreq tr' _) _ H)
              (seq 0 MAX_RETRIES) 1 (tr ++ [listing_step tech_tree_path]))
    as (html & evs & Hrun).
  fold (fetch_with_retries (listing_url tech_tree_path)) in Hrun.
  rewrite Hrun. destruct html as [html|]; [|eauto].
  destruct (falsy html); eauto.
Qed.

Lemma collect_unit_urls_returns (BeautifulSoup : string -> node)
    (srv : server) :
  (forall tr url, request_outcome (srv tr url)) ->
  forall (trees all_unit_urls : list string) (tr : trace),
    exists urls evs,
      run srv (collect_unit_urls BeautifulSoup trees all_unit_urls) tr
      = (Returned urls, evs).
Proof.
  intros Hreq. induction trees as [|tree rest IH]; intros all_unit_urls tr.
  - simpl. eauto.
  - cbn [collect_unit_urls]. rewrite run_bind.
    destruct (get_unit_urls_returns BeautifulSoup srv tree tr Hreq)
      as (urls & evs & ->).
    destruct (IH (all_unit_urls ++ urls) (tr ++ evs)) as (urls' & evs' & ->).
    eauto.
Qed.

Lemma main_collect_returns (BeautifulSoup : string -> node) (srv : server)
    (status_code : Z) (text : string) :
  (forall tr url, request_outcome (srv tr url)) ->
  srv [warm_up_step] BASE_URL = Response status_code text ->
  exists urls evs,
    run srv (main_collect BeautifulSoup) [] = (Returned urls, evs).
Proof.
  intros Hreq Hhome. unfold main_collect. rewrite run_bind.
  assert (exists evs, run srv warm_up [] = (Returned tt, evs)) as [evs0 ->].
  { unfold warm_up. cbn [bind print session_get run app].
    fold warm_up_step. rewrite Hhome.
    cbn [bind run fst]. destruct (status_code =? 200); simpl; eauto. }
  rewrite run_bind.
  destruct (collect_unit_urls_returns BeautifulSoup srv Hreq tech_trees []
              ([] ++ evs0)) as (urls & evs1 & ->).
  cbn [bind print run]. eauto.
Qed.

(** X13.  When the listing phase of [main] returns and, for the answers the
    server gives, no detail call can end with an exception or a negative
    cost, [main] always completes: every run, for every pool size, returns
    normally and its last printed line reports a total that is not
    negative, and a pool of at least one worker has such a run. *)
Theorem main_reports_when_calls_return (BeautifulSoup : string -> node)
    (srv : server) (ok : outcome -> Prop)
    (extract : string -> Z -> Z -> prog Z) (all_unit_urls : list string)
    (tr0 : trace) :
  run srv (main_collect BeautifulSoup) [] = (Returned all_unit_urls, tr0) ->
  (forall tr url, ok (srv tr url)) ->
  Forall (fun call => forall r, ends ok call r ->
                                exists v, r = Returned v /\ 0 <= v)
         (detail_calls extract all_unit_urls) ->
  (forall (workers : nat) (r : result unit) (tr : trace),
      main_run BeautifulSoup srv workers extract r tr ->
      r = Returned tt
      /\ exists total, 0 <= total
                       /\ last (printed tr) = Some (result_line total))
  /\ (forall workers : nat,
        (1 <= workers)%nat ->
        exists tr, main_run BeautifulSoup srv workers extract (Returned tt) tr).
Proof.
  intros Hc Hsrv Hcalls.
  assert (forall (workers : nat) (r : result unit) (tr : trace),
      main_run BeautifulSoup srv workers extract r tr ->
      r = Returned tt
      /\ exists total, 0 <= total
                       /\ last (printed tr) = Some (result_line total)) as Hall.
  { intros workers r tr H.
    inversion H as [e tr' Hc'|urls' tr' s e Hc' Hsteps Hab
                   |urls' tr' s Hc' Hsteps Hdone];
      subst; rewrite Hc in Hc'; simplify_eq.
    - exfalso. destruct Hab as [He _].
      pose proof (pool_steps_inv ok _ _ _ _ _ Hsrv (pool_init_inv _ _ tr')
                    Hsteps) as [Hfs _ _ Hre].
      destruct (Hre e He) as [i Hi].
      destruct (Forall2_lookup_r _ _ _ _ _ Hfs Hi) as (call & Hcall & Hends).
      rewrite Forall_lookup in Hcalls.
      destruct (Hcalls i call Hcall _ Hends) as (v & [=] & _).
    - split; [done|]. exists (total_cost s). split.
      + pose proof (pool_steps_inv ok _ _ _ _ _ Hsrv (pool_init_inv _ _ tr')
                      Hsteps) as Hinv.
        destruct (completed_total _ _ _ Hinv Hdone) as (costs & Hcosts & _ & ->).
        apply sumZ_nonneg. eapply costs_nonneg; [|exact Hcosts].
        eapply Forall_impl; [exact Hcalls|]. simpl.
        intros call Hcall v Hv. destruct (Hcall _ Hv) as (v' & [= <-] & Hpos).
        exact Hpos.
      + rewrite printed_app. simpl. by rewrite last_snoc. }
  split; [exact Hall|]. intros workers Hw.
  destruct (main_run_exists BeautifulSoup srv workers extract Hw)
    as (r & tr & Hrun).
  destruct (Hall _ _ _ Hrun) as [-> _]. by exists tr.
Qed.

Lemma main_reports_when_calls_return_witness :
  fst (run unit_server (main_collect (fun _ => page_listing)) [])
  = Returned collected_example
  /\ exists tr, main (fun _ => page_listing) unit_server (Returned tt) tr.
Proof.
  split; [vm_compute; reflexivity|].
  destruct (main_reports_when_calls_return (fun _ => page_listing) unit_server
              request_outcome (extract_total_cost (fun _ => page_listing))
              collected_example _ ltac:(vm_compute; reflexivity))
    as [_ Hex].
  - intros tr url. exact I.
  - apply Forall_lookup. intros i call Hcall r Hends.
    unfold detail_calls in Hcall. rewrite list_lookup_imap in Hcall.
    destruct (collected_example !! i) as [url|]; [|done].
    simpl in Hcall. simplify_eq. by eapply extract_total_cost_ends.
  - apply Hex. unfold CONCURRENT_WORKERS. lia.
Defined.

(** ** Labels and values of a unit page *)

Lemma append_cons (c : ascii) (s t : string) :
  String c s +:+ t = String c (s +:+ t).
Proof. reflexivity. Qed.

Lemma append_nil_l (t : string) : EmptyString +:+ t = t.
Proof. reflexivity. Qed.

Lemma lstrip_spaces (pre s : string) :
  str_forallb isspace pre = true -> lstrip (pre +:+ s) = lstrip s.
Proof.
  induction pre as [|c pre IH]; [done|]. cbn [str_forallb].
  intros [Hc Hpre]%andb_prop. rewrite append_cons. cbn [lstrip].
  rewrite Hc. by apply IH.
Qed.

Lemma rstrip_all_spaces (post : string) :
  str_forallb isspace post = true -> rstrip post = EmptyString.
Proof.
  induction post as [|c post IH]; [done|]. cbn [str_forallb rstrip].
  intros [Hc Hpost]%andb_prop. by rewrite IH, Hc.
Qed.

Lemma rstrip_spaces (s post : string) :
  str_forallb isspace post = true -> rstrip (s +:+ post) = rstrip s.
Proof.
  intros Hpost. induction s as [|c s IH].
  - rewrite append_nil_l. by apply rstrip_all_spaces.
  - rewrite append_cons. cbn [rstrip]. by rewrite IH.
Qed.

Lemma lstrip_all_spaces (s : string) :
  str_forallb isspace s = true -> lstrip s = EmptyString.
Proof.
  induction s as [|c s IH]; [done|]. cbn [str_forallb lstrip].
  intros [Hc Hs]%andb_prop. by rewrite Hc, IH.
Qed.

Lemma lstrip_append (s post : string) :
  lstrip (s +:+ post) =
  if str_forallb isspace s then lstrip post else lstrip s +:+ post.
Proof.
  induction s as [|c s IH]; [done|]. rewrite append_cons.
  cbn [lstrip str_forallb]. destruct (isspace c); [exact IH|done].
Qed.

(** Surrounding whitespace does not count for [strip]. *)
Lemma strip_padding (pre s post : string) :
  str_forallb isspace pre = true -> str_forallb isspace post = true ->
  strip (pre +:+ s +:+ post) = strip s.
Proof.
  intros Hpre Hpost. unfold strip. rewrite (lstrip_spaces _ _ Hpre).
  rewrite lstrip_append. destruct (str_forallb isspace s) eqn:Hs.
  - by rewrite (lstrip_all_spaces _ Hpost), (lstrip_all_spaces _ Hs).
  - by apply rstrip_spaces.
Qed.

(** X14.  Whitespace around a label does not matter: a line whose header
    reads "Talisman cost" with any whitespace before and after it is the
    Talisman line, and a subline whose first [span] reads "Aces" with any
    whitespace around it is the Aces line. *)
Theorem labels_ignore_padding (div label : node) (pre post : string) :
  str_forallb isspace pre = true ->
  str_forallb isspace post = true ->
  (find div "span" (Some "game-unit_chars-header") = Some label ->
   get_text label = pre +:+ "Talisman cost" +:+ post ->
   is_talisman_line div = true)
  /\ (find div "span" None = Some label ->
      get_text label = pre +:+ "Aces" +:+ post ->
      is_aces_line div = true).
Proof.
  intros Hpre Hpost. split; intros Hfind Htext.
  - unfold is_talisman_line. rewrite Hfind, Htext.
    by rewrite (strip_padding _ _ _ Hpre Hpost).
  - unfold is_aces_line. rewrite Hfind, Htext.
    by rewrite (strip_padding _ _ _ Hpre Hpost).
Qed.

Lemma labels_ignore_padding_witness : is_talisman_line padded_line = true.
Proof.
  apply (proj1 (labels_ignore_padding padded_line
                  (Tag "span" ["game-unit_chars-header"] []
                     [NavigableString "  Talisman"; NavigableString " cost "])
                  "  " " " eq_refl eq_refl)); reflexivity.
Defined.

Lemma str_forallb_filter_isdigit (text : string) :
  str_forallb isdecimal (str_filter isdigit text)
  = str_forallb (fun c => negb (isdigit c) || isdecimal c) text.
Proof.
  induction text as [|c text IH]; [done|]. cbn [str_filter str_forallb].
  destruct (isdigit c) eqn:Hc; cbn [negb orb str_forallb]; by rewrite IH.
Qed.

(** X15.  A value whose text holds a character that is a digit for
    [str.isdigit] but not a decimal, such as a superscript two, counts for
    0: the character is kept by the filter and [int] refuses it. *)
Theorem superscript_digit_voids_value (text : string) :
  str_forallb (fun c => negb (isdigit c) || isdecimal c) text = false ->
  cost_of_text text = 0.
Proof.
  intros H. rewrite cost_of_text_digits. unfold int_of_digits.
  destruct (falsy _); [done|].
  by rewrite str_forallb_filter_isdigit, H.
Qed.

Lemma superscript_digit_voids_value_witness :
  cost_of_text ("1,234" +:+ String (ascii_of_nat 178) EmptyString) = 0.
Proof.
  apply superscript_digit_voids_value. reflexivity.
Defined.


(** ** Progress arguments, warm-up and the order of the requests *)

(** X16.  The progress index and the number of units given to the detail
    extractor are used for its log line only: with other values it returns
    the same cost after the same requests and the same delays. *)
Theorem extract_total_cost_ignores_progress (BeautifulSoup : string -> node)
    (srv : server) (unit_url : string) (index total_units index' total_units' : Z)
    (tr : trace) :
  let run1 :=
    run srv (extract_total_cost BeautifulSoup unit_url index total_units) tr in
  let run2 :=
    run srv (extract_total_cost BeautifulSoup unit_url index' total_units') tr in
  fst run1 = fst run2
  /\ requests (snd run1) = requests (snd run2)
  /\ sleeps (snd run1) = sleeps (snd run2)
  /\ length (snd run1) = length (snd run2).
Proof.
  cbv zeta. rewrite !run_extract_total_cost. cbv zeta.
  destruct (run srv (fetch_with_retries _) _) as [[[html|]|e] evs]; [| |done].
  - destruct (falsy html); [done|]. cbn [fst snd].
    split; [done|]. unfold unit_info.
    rewrite !app_comm_cons, !requests_app, !sleeps_app, !length_app. done.
  - done.
Qed.

(** X17.  The warm-up is a single request: whatever the server answers,
    even a status the fetch would retry, it asks for [BASE_URL] once, with a
    timeout of 10 seconds, and never sleeps; a response of status 200 adds
    no line, any other response adds one warning, and an exception of any
    class leaves it. *)
Theorem warm_up_single_request (srv : server) (tr : trace) :
  let o := srv (tr ++ [warm_up_step]) BASE_URL in
  let r := fst (run srv warm_up tr) in
  let evs := snd (run srv warm_up tr) in
  requests evs = [(BASE_URL, 10)]
  /\ outcomes evs = [o]
  /\ sleeps evs = []
  /\ match o with
     | Response status_code _ =>
         r = Returned tt
         /\ length (printed evs) = if status_code =? 200 then 1%nat else 2%nat
     | Failure e => r = Uncaught e /\ length (printed evs) = 1%nat
     end.
Proof.
  cbv zeta. unfold warm_up. cbn [bind print session_get run].
  fold warm_up_step.
  destruct (srv (tr ++ [warm_up_step]) BASE_URL) as [status_code text|e].
  - cbn [bind run fst]. destruct (status_code =? 200); done.
  - done.
Qed.




(** ** C9: the running total *)

Lemma attempt_body_ends_failed (url : string) (attempt : nat) (backoff : Z)
    (r : result flow) :
  ends failed_outcome (attempt_body url attempt backoff) r ->
  r = Returned Break \/ exists backoff', r = Returned (Next backoff').
Proof.
  unfold attempt_body. intros H.
  apply ends_try_except in H as [(f & Hf & ->)|(e & He & Hc)].
  - apply ends_bind in Hf as [(resp & Hget & Hf)|(e' & _ & [=])].
    assert (fst resp <> 200) as Hne.
    { unfold session_get in Hget.
      inversion Hget as [| |? ? ? o ? Hok Hk| |]; subst.
      destruct o as [status_code text|e']; inversion Hk; subst. exact Hok. }
    destruct resp as [status_code text]. simpl in Hne.
    destruct (Z.eqb_spec status_code 200) as [->|_]; [done|].
    destruct (retry_status status_code).
    + apply ends_bind in Hf as [(_ & _ & Hf)|(e' & Hf & [=])].
      apply ends_bind in Hf as [(_ & _ & Hf)|(e' & Hf & [=])].
      inversion Hf; subst. eauto.
    + apply ends_print_ret in Hf as [= ->]. by left.
  - assert (is_RequestException e = true) as Hreq.
    { apply ends_bind in He as [(resp & _ & He)|(e' & He & [= <-])].
      - destruct resp as [status_code text].
        destruct (status_code =? 200); [inversion He|].
        destruct (retry_status status_code).
        + apply ends_bind in He as [(_ & _ & He)|(e' & He & [= <-])].
          * apply ends_bind in He as [(_ & _ & He)|(e' & He & [= <-])].
            -- inversion He.
            -- inversion He as [| | | ? ? ? He'|]; subst. inversion He'.
          * inversion He as [| | | |? ? ? He']; subst. inversion He'.
        + apply ends_print_ret in He. done.
      - unfold session_get in He.
        inversion He as [| |? ? ? o ? Hok Hk| |]; subst.
        destruct o as [status_code text|e']; inversion Hk; subst. exact Hok. }
    rewrite Hreq in Hc.
    apply ends_bind in Hc as [(_ & _ & Hc)|(e' & Hc & _)].
    + apply ends_bind in Hc as [(_ & _ & Hc)|(e' & Hc & _)].
      * inversion Hc; subst. eauto.
      * inversion Hc as [| | | ? ? ? Hc'|]; subst. inversion Hc'.
    + inversion Hc as [| | | |? ? ? Hc']; subst. inversion Hc'.
Qed.

Lemma fetch_loop_ends_failed (url : string) :
  forall (attempts : list nat) (backoff : Z) (r : result (option string)),
    ends failed_outcome (fetch_loop url attempts backoff) r ->
    r = Returned None.
Proof.
  induction attempts as [|attempt rest IH]; intros backoff r H;
    cbn [fetch_loop] in H.
  - by inversion H.
  - apply ends_bind in H as [(f & Hf & H)|(e & He & _)].
    + apply attempt_body_ends_failed in Hf as [[= ->]|(backoff' & [= ->])].
      * by inversion H.
      * by eapply IH.
    + apply attempt_body_ends_failed in He as [[=]|(backoff' & [=])].
Qed.

(** When no fetch can succeed, a detail call returns 0. *)
Lemma extract_total_cost_ends_failed (BeautifulSoup : string -> node)
    (unit_url : string) (index total_units : Z) (r : result Z) :
  ends failed_outcome
       (extract_total_cost BeautifulSoup unit_url index total_units) r ->
  r = Returned 0.
Proof.
  unfold extract_total_cost. cbv zeta. intros H.
  apply ends_bind in H as [(_ & _ & H)|(e & He & _)].
  - apply ends_bind in H as [(html & Hfetch & H)|(e & He & _)].
    + apply fetch_loop_ends_failed in Hfetch as [= ->].
      by apply ends_print_ret in H.
    + apply fetch_loop_ends_failed in He as [=].
  - inversion He as [| | | ? ? ? He'|]; subst. inversion He'.
Qed.

Lemma failed_calls (BeautifulSoup : string -> node)
    (all_unit_urls : list string) (i : nat) (call : prog Z) (r : result Z) :
  detail_calls (extract_total_cost BeautifulSoup) all_unit_urls !! i = Some call ->
  ends failed_outcome call r -> r = Returned 0.
Proof.
  intros Hcall Hends.
  unfold detail_calls in Hcall. rewrite list_lookup_imap in Hcall.
  destruct (all_unit_urls !! i) as [url|]; [|done].
  simpl in Hcall. simplify_eq. by eapply extract_total_cost_ends_failed.
Qed.

(** The pool of detail calls when no fetch can succeed: no exception is
    ever propagated, and a pool left normally has a total of 0. *)
Lemma failed_pool (BeautifulSoup : string -> node) (srv : server)
    (workers : nat) (all_unit_urls : list string) (tr0 : trace) (s : pool) :
  (forall tr url, failed_outcome (srv tr url)) ->
  pool_steps srv workers
    (Pool (submit_all (extract_total_cost BeautifulSoup) all_unit_urls)
          0 tr0 None) s ->
  raised s = None /\ (completed s -> total_cost s = 0).
Proof.
  intros Hsrv Hsteps.
  pose proof (pool_steps_inv failed_outcome _ _ _ _ _ Hsrv
                (pool_init_inv _ _ tr0) Hsteps) as Hinv.
  split.
  - destruct Hinv as [Hfs _ _ Hre].
    destruct (raised s) as [e|]; [exfalso|done].
    destruct (Hre e eq_refl) as [i Hi].
    destruct (Forall2_lookup_r _ _ _ _ _ Hfs Hi) as (call & Hcall & Hends).
    simpl in Hends. by apply (failed_calls _ _ _ _ _ Hcall) in Hends.
  - intros Hdone.
    destruct (completed_total _ _ _ Hinv Hdone) as (costs & Hcosts & _ & ->).
    assert (Forall (fun v => v = 0) costs) as Hzero.
    { apply Forall_lookup. intros i v Hv.
      destruct (Forall2_lookup_r _ _ _ _ _ Hcosts Hv) as (call & Hcall & Hends).
      apply (failed_calls _ _ _ _ _ Hcall) in Hends. by injection Hends. }
    clear -Hzero. induction Hzero as [|v costs -> _ IH]; [done|].
    unfold sumZ in *. simpl. by rewrite IH.
Qed.

Lemma yielded_sum_nonneg (ok : outcome -> Prop) (tasks : list (prog Z))
    (fs : list future) :
  Forall (fun task => forall v, ends ok task (Returned v) -> 0 <= v) tasks ->
  Forall2 (future_of ok) tasks fs ->
  0 <= yielded_sum fs.
Proof.
  intros Hpos Hfs. induction Hfs as [|task f tasks fs Hf _ IH]; [done|].
  inversion Hpos as [|? ? Htask Htasks]; subst. specialize (IH Htasks).
  unfold yielded_sum in *. simpl.
  assert (0 <= yielded_value f); [|lia].
  destruct f as [p|p|r|[v|e]]; simpl; try done. by apply Htask.
Qed.

(** A pool with a worker can always be run until [main] leaves it. *)
Lemma pool_terminal_exists (srv : server) (workers : nat)
    (tasks : list (prog Z)) (tr : trace) :
  (1 <= workers)%nat ->
  exists s,
    pool_steps srv workers (Pool (map Pending tasks) 0 tr None) s
    /\ (completed s \/ exists e, aborted s e).
Proof.
  intros Hw.
  destruct (sequential_schedule srv workers Hw tasks [] 0 tr None eq_refl)
    as (s & Hs & Hfin).
  exists s. split; [exact Hs|].
  destruct (raised s) as [e|] eqn:He.
  - right. exists e. apply settled_aborted; [by rewrite He|done].
  - left. apply settled_completed; [by rewrite He|done].
Qed.

(** C9.  Every cost the detail extractor returns is non-negative; hence
    [total_cost] never decreases from one step of the pool to the next, and
    at every moment it is the sum of the costs of the futures handed out so
    far; when the pool is left normally it is the sum of the costs
    returned, one per collected reference, none of them negative.  A pool
    with a worker can always be run until [main] leaves it.  A fetch that
    returns [None] makes its detail call return 0; and when no fetch can
    succeed (no status 200, failures from the [requests] hierarchy only),
    [main] never propagates an exception out of the pool, the pool can be
    run to completion and every completed run has a total of 0.  On the
    site that serves the page with Talisman 1,000 and Aces 250 for one unit
    and refuses the connection for the other, the pool of the script runs
    to completion with a total of 1250. *)
Theorem run_total_invariant (BeautifulSoup : string -> node) (srv : server)
    (workers : nat) (all_unit_urls : list string) (tr0 : trace) :
  let init :=
    Pool (submit_all (extract_total_cost BeautifulSoup) all_unit_urls)
         0 tr0 None in
  (forall (unit_url : string) (index total_units : Z) (tr : trace) (v : Z),
      fst (run srv (extract_total_cost BeautifulSoup unit_url index total_units) tr)
      = Returned v ->
      0 <= v)
  /\ (forall s s' : pool,
        pool_steps srv workers init s -> pool_step srv workers s s' ->
        total_cost s <= total_cost s')
  /\ (forall s : pool,
        pool_steps srv workers init s ->
        total_cost s = yielded_sum (futures s) /\ 0 <= total_cost s)
  /\ (forall s : pool,
        pool_steps srv workers init s -> completed s ->
        exists costs : list Z,
          length costs = length all_unit_urls
          /\ Forall (fun v => 0 <= v) costs
          /\ futures s = map (fun v => Yielded (Returned v)) costs
          /\ total_cost s = sumZ costs)
  /\ ((1 <= workers)%nat ->
      exists s : pool,
        pool_steps srv workers init s
        /\ (completed s \/ exists e, aborted s e))
  /\ (forall (unit_url : string) (index total_units : Z) (tr : trace),
        fst (run srv (fetch_with_retries (BASE_URL +:+ unit_url))
                 (tr ++ [EvSleep REQUEST_DELAY])) = Returned None ->
        fst (run srv (extract_total_cost BeautifulSoup unit_url index total_units) tr)
        = Returned 0)
  /\ ((forall tr url, failed_outcome (srv tr url)) ->
      (forall s : pool,
          pool_steps srv workers init s ->
          raised s = None /\ (completed s -> total_cost s = 0))
      /\ ((1 <= workers)%nat ->
          exists s : pool, pool_steps srv workers init s /\ completed s))
  /\ (exists s : pool,
        pool_steps (static half_site) CONCURRENT_WORKERS
          (Pool (submit_all (extract_total_cost (fun _ => page_both))
                            ["/unit/a"; "/unit/b"]) 0 [] None) s
        /\ completed s
        /\ futures s = [Yielded (Returned 1250); Yielded (Returned 0)]
        /\ total_cost s = 1250).
Proof.
  cbv zeta.
  assert (forall s : pool,
             pool_steps srv workers
               (Pool (submit_all (extract_total_cost BeautifulSoup)
                                 all_unit_urls) 0 tr0 None) s ->
             pool_inv any_outcome
               (detail_calls (extract_total_cost BeautifulSoup) all_unit_urls) s)
    as Hinv.
  { intros s Hsteps.
    eapply pool_steps_inv; [done|apply pool_init_inv|exact Hsteps]. }
  split; [|split; [|split; [|split; [|split; [|split; [|split]]]]]].
  - intros unit_url index total_units tr v Hrun.
    eapply extract_total_cost_ends_nonneg. rewrite <- Hrun.
    by apply run_ends.
  - intros s s' Hsteps Hstep.
    eapply (pool_step_total_mono any_outcome);
      [apply detail_calls_nonneg|by apply Hinv|exact Hstep].
  - intros s Hsteps. destruct (Hinv s Hsteps) as [Hfs Htot _ _].
    split; [exact Htot|]. rewrite Htot.
    eapply yielded_sum_nonneg; [apply detail_calls_nonneg|exact Hfs].
  - intros s Hsteps Hdone.
    destruct (completed_total _ _ _ (Hinv s Hsteps) Hdone)
      as (costs & Hcosts & Hfs & Htot).
    exists costs. split; [|split; [|done]].
    + apply Forall2_length in Hcosts. unfold detail_calls in Hcosts.
      by rewrite length_imap in Hcosts.
    + eapply costs_nonneg; [apply detail_calls_nonneg|exact Hcosts].
  - intros Hw. by apply pool_terminal_exists.
  - intros unit_url index total_units tr Hfetch.
    rewrite run_extract_total_cost. cbv zeta.
    destruct (run srv (fetch_with_retries _) _) as [r evs].
    simpl in Hfetch. by subst r.
  - intros Hsrv. split.
    + intros s Hsteps. by eapply failed_pool.
    + intros Hw.
      destruct (pool_terminal_exists srv workers
                  (detail_calls (extract_total_cost BeautifulSoup) all_unit_urls)
                  tr0 Hw) as (s & Hsteps & [Hdone|[e [He _]]]).
      * by exists s.
      * destruct (failed_pool _ _ _ _ _ _ Hsrv Hsteps) as [Hnone _]. congruence.
  - destruct (pool_terminal_exists (static half_site) CONCURRENT_WORKERS
                (detail_calls (extract_total_cost (fun _ => page_both))
                              ["/unit/a"; "/unit/b"]) [])
      as (s & Hsteps & Hterm); [unfold CONCURRENT_WORKERS; lia|].
    assert (completed s) as Hdone.
    { destruct Hterm as [Hdone|[e [He _]]]; [done|].
      rewrite (detail_pool_never_raises (fun _ => page_both) (static half_site)
                 CONCURRENT_WORKERS ["/unit/a"; "/unit/b"] [] s) in He;
        [done| |exact Hsteps].
      intros tr url. unfold static, half_site. by destruct (String.eqb _ _). }
    exists s. split; [exact Hsteps|]. split; [exact Hdone|].
    pose proof (pool_steps_inv any_outcome _ _ _ _ _ (fun _ _ => I)
                  (pool_init_inv _ _ []) Hsteps) as Hinv'.
    destruct (completed_total _ _ _ Hinv' Hdone) as (costs & _ & Hfs & Htot).
    destruct (completed_total_on half_site _ _ _ _ Hsteps Hdone)
      as (costs' & Hcosts' & Htot').
    assert (costs' = [1250; 0]) as ->.
    { inversion Hcosts' as [|c1 v1 cs1 vs1 Hv1 Hrest1]; subst.
      inversion Hrest1 as [|c2 v2 cs2 vs2 Hv2 Hrest2]; subst.
      inversion Hrest2; subst.
      vm_compute in Hv1. vm_compute in Hv2. by simplify_eq. }
    split; [|exact Htot'].
    rewrite Hfs. f_equal.
    (* the futures hold the costs of the calls run alone *)
    assert (Forall2 (future_on half_site)
              (detail_calls (extract_total_cost (fun _ => page_both))
                            ["/unit/a"; "/unit/b"]) (futures s)) as Hon.
    { eapply pool_steps_on; [|exact Hsteps]. simpl.
      repeat constructor. }
    rewrite Hfs in Hon.
    inversion Hon as [|c1 f1 cs1 fs1 Hf1 Hrest1 Heq1 Heq2]; subst.
    destruct costs as [|v1 costs]; [done|]. simpl in Heq2.
    injection Heq2 as -> ->.
    inversion Hrest1 as [|c2 f2 cs2 fs2 Hf2 Hrest2 Heq1' Heq2']; subst.
    destruct costs as [|v2 costs]; [done|]. simpl in Heq2'.
    injection Heq2' as -> ->.
    inversion Hrest2 as [Heq1''|]; subst.
    destruct costs; [|done].
    simpl in Hf1, Hf2.
    pose proof (ends_on_unique _ _ _ _ (ends_on_run half_site _ []) Hf1) as H1.
    pose proof (ends_on_unique _ _ _ _ (ends_on_run half_site _ []) Hf2) as H2.
    vm_compute in H1. vm_compute in H2. by simplify_eq.
Qed.

Lemma run_total_invariant_witness :
  (exists s : pool,
      pool_steps (static half_site) CONCURRENT_WORKERS
        (Pool (submit_all (extract_total_cost (fun _ => page_both))
                          ["/unit/a"; "/unit/b"]) 0 [] None) s
      /\ completed s
      /\ futures s = [Yielded (Returned 1250); Yielded (Returned 0)]
      /\ total_cost s = 1250)
  /\ (exists s : pool,
        pool_steps unreachable CONCURRENT_WORKERS
          (Pool (submit_all (extract_total_cost (fun _ => page_both))
                            ["/unit/a"; "/unit/a"]) 0 [] None) s
        /\ completed s /\ total_cost s = 0).
Proof.
  pose proof (run_total_invariant (fun _ => page_both) unreachable
                CONCURRENT_WORKERS ["/unit/a"; "/unit/a"] []) as H.
  cbv zeta in H.
  destruct H as (_ & _ & _ & _ & _ & _ & Hfailed & Hexample).
  split; [exact Hexample|].
  destruct Hfailed as [Hall Hex]; [intros tr url; reflexivity|].
  destruct Hex as (s & Hsteps & Hdone); [unfold CONCURRENT_WORKERS; lia|].
  exists s. split; [exact Hsteps|]. split; [exact Hdone|].
  by apply (Hall s Hsteps).
Defined.
